(** * Miscellaneous utility modules: text cleaning and the HTTP request helper

    A shallow embedding of [limpieza_texto.py] and [cnx_api.py].

    Python strings are sequences of Unicode code points, so a [str] is a list
    of code points; the part of the [re] module the two text functions rely on
    (escaping, the parser of a character set, substitution) and [str.strip]
    are embedded as executable functions.  Calls that may raise return an
    [outcome]; calls that may touch the outside world thread it explicitly. *)

From Stdlib Require Import List NArith ZArith QArith Bool Lia String Ascii.
From stdpp Require Import gmap strings list fin_maps.
Import ListNotations.

Local Open Scope N_scope.

(** ** Python values, exceptions and computations *)

Definition codepoint := N.
Definition str := list codepoint.

Definition ord (a : ascii) : codepoint := N_of_ascii a.

(** A source literal made of ASCII characters, as a [str]. *)
Fixpoint lit (s : string) : str :=
  match s with
  | EmptyString => []
  | String a s' => ord a :: lit s'
  end.

(** The objects a caller may pass as [texto].  [VInstance cls] is an instance
    of any other class, [cls] being the identifier it is named by. *)
Inductive value :=
| VNone
| VStr (s : str)
| VBool (b : bool)
| VInt (z : Z)
| VInstance (cls : string).

(** [type(v).__name__] *)
Definition type_name (v : value) : string :=
  match v with
  | VNone => "NoneType"
  | VStr _ => "str"
  | VBool _ => "bool"
  | VInt _ => "int"
  | VInstance cls => cls
  end.

(** [isinstance(v, str)] *)
Definition isinstance_str (v : value) : bool :=
  match v with VStr _ => true | _ => false end.

(** [repr] of a string that is an identifier. *)
Definition repr (s : string) : string := ("'" ++ s ++ "'")%string.

Inductive exn :=
| TypeError (msg : string)
| PatternError.   (* [re.error], or a pattern outside the embedded fragment *)

(** A call returns a value or raises an exception of type [E]. *)
Inductive outcome (E A : Type) :=
| Return (a : A)
| Raise (e : E).
Arguments Return {E A} a.
Arguments Raise {E A} e.

(** A call that may read and change a world [W]. *)
Definition py (W E A : Type) := W -> outcome E A * W.

(** ** [Py_UNICODE_ISSPACE]: the whitespace of [\s] and of [str.strip] *)

Definition Py_UNICODE_ISSPACE (c : codepoint) : bool :=
  ((9 <=? c) && (c <=? 13)) || ((28 <=? c) && (c <=? 32))
  || (c =? 133) || (c =? 160) || (c =? 5760)
  || ((8192 <=? c) && (c <=? 8202))
  || (c =? 8232) || (c =? 8233) || (c =? 8239) || (c =? 8287)
  || (c =? 12288).

Definition is_ascii_letter (c : codepoint) : bool :=
  ((ord "a" <=? c) && (c <=? ord "z")) || ((ord "A" <=? c) && (c <=? ord "Z")).

Definition is_ascii_digit (c : codepoint) : bool :=
  (ord "0" <=? c) && (c <=? ord "9").

(** ** The fragment of [re] used by the module *)

(** [re.escape]: a backslash goes before each of the characters of
    [_special_chars_map]. *)
Definition special_chars : str :=
  lit "()[]{}?*+-|^$\.&~# " ++ [9; 10; 13; 11; 12].

Definition is_special (c : codepoint) : bool :=
  existsb (N.eqb c) special_chars.

Definition re_escape (s : str) : str :=
  flat_map (fun c => if is_special c then [ord "\"; c] else [c]) s.

(** The tokenizer reads a backslash together with the character after it. *)
Inductive token :=
| TChar (c : codepoint)
| TEsc (c : codepoint).

Fixpoint tokenize (s : str) : option (list token) :=
  match s with
  | [] => Some []
  | c :: rest =>
      if c =? ord "\" then
        match rest with
        | [] => None                       (* bad escape (end of pattern) *)
        | d :: rest' => cons (TEsc d) <$> tokenize rest'
        end
      else cons (TChar c) <$> tokenize rest
  end.

Inductive set_item :=
| LITERAL (c : codepoint)
| RANGE (lo hi : codepoint)
| CATEGORY_SPACE.

(** A compiled pattern of the fragment: one character set, either matched
    once ([p_repeat = None]) or greedily [lo] or more times
    ([p_repeat = Some lo], the quantifier [{lo,}]). *)
Record pattern := {
  p_negate : bool;
  p_set : list set_item;
  p_repeat : option nat
}.

Definition ESCAPES : list (codepoint * codepoint) :=
  [(ord "a", 7); (ord "b", 8); (ord "f", 12); (ord "n", 10);
   (ord "r", 13); (ord "t", 9); (ord "v", 11); (ord "\", ord "\")].

Fixpoint assoc (c : codepoint) (l : list (codepoint * codepoint)) : option codepoint :=
  match l with
  | [] => None
  | (k, v) :: l' => if c =? k then Some v else assoc c l'
  end.

(** [_class_escape]: an escape inside a character set.  The categories other
    than [\s] and the numeric escapes are outside the fragment; a backslash
    before any other ASCII letter or digit is a bad escape. *)
Definition class_escape (c : codepoint) : option set_item :=
  match assoc c ESCAPES with
  | Some v => Some (LITERAL v)
  | None =>
      if c =? ord "s" then Some CATEGORY_SPACE
      else if is_ascii_letter c || is_ascii_digit c then None
      else Some (LITERAL c)
  end.

Definition class_code (t : token) : option set_item :=
  match t with
  | TChar c => Some (LITERAL c)
  | TEsc c => class_escape c
  end.

Definition is_char (a : ascii) (t : token) : bool :=
  match t with
  | TChar c => c =? ord a
  | TEsc _ => false
  end.

Definition nonempty {A} (l : list A) : bool :=
  match l with [] => false | _ => true end.

(** The loop of [_parse] over the body of a character set: [set] holds the
    items read so far; the result is the set and the tokens after the closing
    bracket. *)
Fixpoint parse_set (toks : list token) (set : list set_item)
  : option (list set_item * list token) :=
  match toks with
  | [] => None                             (* unterminated character set *)
  | this :: rest =>
      if is_char "]" this && nonempty set then Some (set, rest)
      else
        code1 ← class_code this;
        match rest with
        | dash :: rest2 =>
            if is_char "-" dash then
              match rest2 with
              | [] => None                 (* unterminated character set *)
              | that :: rest3 =>
                  if is_char "]" that then
                    Some (set ++ [code1; LITERAL (ord "-")], rest3)
                  else
                    code2 ← class_code that;
                    match code1, code2 with
                    | LITERAL lo, LITERAL hi =>
                        if hi <? lo then None   (* bad character range *)
                        else parse_set rest3 (set ++ [RANGE lo hi])
                    | _, _ => None              (* bad character range *)
                    end
              end
            else parse_set rest (set ++ [code1])
        | [] => parse_set rest (set ++ [code1])
        end
  end.

(** Decimal digits of a repeat count. *)
Fixpoint read_digits (toks : list token) (acc : option nat)
  : option nat * list token :=
  match toks with
  | TChar c :: rest =>
      if is_ascii_digit c
      then read_digits rest (Some (10 * default 0%nat acc + N.to_nat (c - ord "0"))%nat)
      else (acc, toks)
  | _ => (acc, toks)
  end.

(** One item: a character set in brackets, or [\s]. *)
Definition parse_item (toks : list token)
  : option (bool * list set_item * list token) :=
  match toks with
  | TChar c :: rest =>
      if c =? ord "[" then
        let '(negate, rest') :=
          match rest with
          | t :: r => if is_char "^" t then (true, r) else (false, rest)
          | [] => (false, rest)
          end in
        '(set, after) ← parse_set rest' [];
        Some (negate, set, after)
      else None
  | TEsc c :: rest =>
      if c =? ord "s" then Some (false, [CATEGORY_SPACE], rest) else None
  | [] => None
  end.

(** The quantifier after the item: none, or [{lo,}] with [lo] at least 1
    (a pattern that matches the empty string is outside the fragment). *)
Definition parse_repeat (toks : list token) : option (option nat) :=
  match toks with
  | [] => Some None
  | t :: rest =>
      if is_char "{" t then
        match read_digits rest None with
        | (Some (S lo), [c; b]) =>
            if is_char "," c && is_char "}" b then Some (Some (S lo)) else None
        | _ => None
        end
      else None
  end.

Definition re_compile (pat : str) : option pattern :=
  toks ← tokenize pat;
  '(negate, set, after) ← parse_item toks;
  rep ← parse_repeat after;
  Some {| p_negate := negate; p_set := set; p_repeat := rep |}.

Definition item_matches (c : codepoint) (i : set_item) : bool :=
  match i with
  | LITERAL d => c =? d
  | RANGE lo hi => (lo <=? c) && (c <=? hi)
  | CATEGORY_SPACE => Py_UNICODE_ISSPACE c
  end.

(** Does the set of [p] accept [c]? *)
Definition in_set (p : pattern) (c : codepoint) : bool :=
  xorb (p_negate p) (existsb (item_matches c) (p_set p)).

(** Length of the longest prefix of [s] made of characters accepted by [f]. *)
Fixpoint span_len (f : codepoint -> bool) (s : str) : nat :=
  match s with
  | c :: rest => if f c then S (span_len f rest) else 0%nat
  | [] => 0%nat
  end.

(** A match of [p] at the start of [s], as the number of characters taken. *)
Definition match_at (p : pattern) (s : str) : option nat :=
  match p_repeat p with
  | None =>
      match s with
      | c :: _ => if in_set p c then Some 1%nat else None
      | [] => None
      end
  | Some lo =>
      let n := span_len (in_set p) s in
      if (lo <=? n)%nat then Some n else None
  end.

(** [re.sub]: the scan goes left to right; [skip] counts the characters of
    the text still covered by the match that was just replaced.  Where the
    pattern matches, the match is replaced by [repl] and the scan resumes
    after it; elsewhere the character is copied.  The patterns of the
    fragment take at least one character, so the rule of [re.sub] for empty
    matches has no part here. *)
Fixpoint sub_from (p : pattern) (repl : str) (s : str) (skip : nat) : str :=
  match s with
  | [] => []
  | c :: rest =>
      match skip with
      | S k => sub_from p repl rest k
      | O =>
          match match_at p s with
          | Some (S n) => repl ++ sub_from p repl rest n
          | _ => c :: sub_from p repl rest 0
          end
      end
  end.

Definition re_sub (p : pattern) (repl : str) (s : str) : str :=
  sub_from p repl s 0.

(** ** [str.strip] *)

Fixpoint lstrip (s : str) : str :=
  match s with
  | c :: rest => if Py_UNICODE_ISSPACE c then lstrip rest else s
  | [] => []
  end.

Definition rstrip (s : str) : str := rev (lstrip (rev s)).

Definition strip (s : str) : str := rstrip (lstrip s).

(** ** [limpieza_texto.py] *)

Module LimpiezaTexto.

Definition TypeError_msg (v : value) : string :=
  ("Se esperaba 'str' o None, pero se recibió " ++ repr (type_name v))%string.

(** The decorator: [wrapper] for a given [func]. *)
Definition decorador_validar_texto {W Args : Type}
    (func : str -> Args -> py W exn value)
    (texto : value) (args : Args) : py W exn value :=
  fun w =>
    match texto with
    | VNone => (Return VNone, w)
    | VStr s => func s args w
    | _ => (Raise (TypeError (TypeError_msg texto)), w)
    end.

(** The world of the module's own functions is the number of times a
    decorated body has run. *)
Definition counted {Args : Type} (body : str -> Args -> outcome exn value)
  : str -> Args -> py nat exn value :=
  fun s args calls => (body s args, S calls).

Definition PATRON_MULTIESPACIO : option pattern :=
  re_compile (lit "\s{2,}").

Definition limpiar_espacios_body (texto : str) (_ : unit) : outcome exn value :=
  match PATRON_MULTIESPACIO with
  | Some p => Return (VStr (strip (re_sub p (lit " ") texto)))
  | None => Raise PatternError
  end.

Definition limpiar_espacios : value -> unit -> py nat exn value :=
  decorador_validar_texto (counted limpiar_espacios_body).

Definition limpiar_caracteres_body (texto : str) (permitir_caracter : list str)
  : outcome exn value :=
  let caracteres_permitidos := re_escape (concat permitir_caracter) in
  let patron := lit "[^a-zA-Z0-9\s" ++ caracteres_permitidos ++ lit "]" in
  match re_compile patron with
  | Some p => Return (VStr (re_sub p [] texto))
  | None => Raise PatternError
  end.

Definition limpiar_caracteres : value -> list str -> py nat exn value :=
  decorador_validar_texto (counted limpiar_caracteres_body).

End LimpiezaTexto.

(** ** [cnx_api.py] *)

Module CnxApi.

(** Mappings of headers are objects the caller and the helper may share, so
    they live in a store, each at its address. *)
Definition loc := positive.

(** The world of a call: the store of mappings, and the state [W] of whatever
    is behind the transport (the network, or the record a stub keeps). *)
Record world (W : Type) := World {
  heap : gmap positive (gmap string string);
  ext : W
}.
Arguments World {W} heap ext.
Arguments heap {W} w.
Arguments ext {W} w.

(** What [request_func] is called with. *)
Record request (Params Json Float : Type) := Request {
  r_method : string;
  r_url : string;
  r_params : option Params;
  r_json : option Json;
  r_headers : loc;
  r_timeout : Float
}.
Arguments Request {Params Json Float}.
Arguments r_method {Params Json Float} r.
Arguments r_url {Params Json Float} r.
Arguments r_params {Params Json Float} r.
Arguments r_json {Params Json Float} r.
Arguments r_headers {Params Json Float} r.
Arguments r_timeout {Params Json Float} r.

(** [requests.exceptions.RequestException]: the error for a status code, and
    the failures of the transport itself. *)
Inductive request_exception (Response : Type) :=
| HTTPError (response : Response)
| TransportError (kind : string).
Arguments HTTPError {Response} response.
Arguments TransportError {Response} kind.

Section RequestApi.
Context {W Params Json Float Response : Type}.

(** [session.request] and [requests.request]. *)
Definition transport : Type :=
  request Params Json Float ->
  py (world W) (request_exception Response) Response.

(** [str.upper] *)
Variable upper : string -> string.
(** [Response.raise_for_status]: the exception it raises, if any. *)
Variable raise_for_status : Response -> option (request_exception Response).
(** [requests.request] *)
Variable requests_request : transport.

(** The mapping at an address. *)
Definition deref (σ : world W) (l : loc) : gmap string string :=
  default ∅ (heap σ !! l).

(** [dict(items)]: a new mapping with the same entries. *)
Definition new_dict (items : gmap string string) (σ : world W) : loc * world W :=
  let l := fresh (dom (heap σ)) in
  (l, World (<[l := items]> (heap σ)) (ext σ)).

(** [d[k] = v] *)
Definition setitem (l : loc) (k v : string) (σ : world W) : world W :=
  World (<[l := <[k := v]> (deref σ l)]> (heap σ)) (ext σ).

(** [k in d] *)
Definition contains (l : loc) (k : string) (σ : world W) : bool :=
  bool_decide (is_Some (deref σ l !! k)).

(** Truth value of an optional string: [None] and the empty string are false. *)
Definition truthy (s : option string) : bool :=
  match s with
  | Some t => negb (String.eqb t "")
  | None => false
  end.

Definition request_api (method url : string)
    (params : option Params) (json_data : option Json)
    (headers : option loc) (bearer_token : option string)
    (session : option transport) (timeout : Float)
  : py (world W) (request_exception Response) Response :=
  fun σ =>
    let method := upper method in
    (* final_headers = dict(headers or {}) *)
    let source : gmap string string :=
      match headers with
      | Some l => if bool_decide (deref σ l = ∅) then ∅ else deref σ l
      | None => ∅
      end in
    let '(final_headers, σ1) := new_dict source σ in
    let σ2 :=
      if truthy bearer_token && negb (contains final_headers "Authorization" σ1)
      then setitem final_headers "Authorization"
             (String.append "Bearer " (default EmptyString bearer_token)) σ1
      else σ1 in
    let request_func :=
      match session with
      | Some s => s
      | None => requests_request
      end in
    match request_func (Request method url params json_data final_headers timeout) σ2 with
    | (Raise e, σ3) => (Raise e, σ3)
    | (Return response, σ3) =>
        match raise_for_status response with
        | Some e => (Raise e, σ3)
        | None => (Return response, σ3)
        end
    end.

End RequestApi.

(** A stub transport: it answers with [reply] and records each request it is
    given together with the headers found at the request's address. *)
Definition stub_transport {Params Json Float Response : Type}
    (reply : outcome (request_exception Response) Response)
  : @transport (list (request Params Json Float * gmap string string))
               Params Json Float Response :=
  fun req σ => (reply, World (heap σ) (ext σ ++ [(req, deref σ (r_headers req))])).

(** [str.upper] on ASCII text. *)
Definition upper_char (a : ascii) : ascii :=
  let n := nat_of_ascii a in
  if ((97 <=? n) && (n <=? 122))%nat then ascii_of_nat (n - 32) else a.

Fixpoint ascii_upper (s : string) : string :=
  match s with
  | EmptyString => EmptyString
  | String a s' => String (upper_char a) (ascii_upper s')
  end.

(** A response of a stub: its status code and its body. *)
Record stub_response := StubResponse {
  status_code : Z;
  content : string
}.

(** The operation of the transport collaborator that raises when the status
    code is 400 or more. *)
Definition stub_raise_for_status (r : stub_response)
  : option (request_exception stub_response) :=
  if (400 <=? status_code r)%Z then Some (HTTPError r) else None.

(** [requests.Response.raise_for_status]: an [HTTPError] for a client error
    (400 to 499) or a server error (500 to 599), nothing for any other status
    code. *)
Definition Response_raise_for_status (r : stub_response)
  : option (request_exception stub_response) :=
  if ((400 <=? status_code r) && (status_code r <? 500))%Z
  then Some (HTTPError r)
  else if ((500 <=? status_code r) && (status_code r <? 600))%Z
       then Some (HTTPError r)
       else None.

End CnxApi.

(** ** Properties of the embedded [re] fragment *)

Section Substitution.
Variables (p : pattern) (repl : str).

(** Skipping [k] characters is resuming the scan [k] characters later. *)
Lemma sub_from_drop (s : str) (k : nat) :
  sub_from p repl s k = sub_from p repl (drop k s) 0.
Proof.
  revert k; induction s as [|c rest IH]; intros [|k]; try reflexivity.
  cbn [sub_from drop]. apply IH.
Qed.

(** The scan, one match at a time. *)
Lemma re_sub_cons (c : codepoint) (rest : str) :
  re_sub p repl (c :: rest) =
    match match_at p (c :: rest) with
    | Some (S n) => repl ++ re_sub p repl (drop n rest)
    | _ => c :: re_sub p repl rest
    end.
Proof.
  unfold re_sub. cbn [sub_from].
  destruct (match_at p (c :: rest)) as [[|n]|]; try reflexivity.
  now rewrite sub_from_drop.
Qed.

(** A set matched once and replaced by nothing filters the text. *)
Lemma re_sub_single_char (s : str) :
  p_repeat p = None -> repl = [] ->
  re_sub p repl s = List.filter (fun c => negb (in_set p c)) s.
Proof.
  intros Hrep Hrepl. induction s as [|c rest IH]; [reflexivity|].
  rewrite re_sub_cons. unfold match_at. rewrite Hrep. cbn [List.filter].
  destruct (in_set p c); cbn [negb]; rewrite ?drop_0, IH; [|reflexivity].
  now rewrite Hrepl.
Qed.
End Substitution.

(** A compiled pattern takes at least one character wherever it matches, so
    the scan never meets an empty match. *)
Lemma parse_repeat_positive (toks : list token) (lo : nat) :
  parse_repeat toks = Some (Some lo) -> (1 <= lo)%nat.
Proof.
  unfold parse_repeat. destruct toks as [|t rest]; [discriminate|].
  destruct (is_char "{" t); [|discriminate].
  destruct (read_digits rest None) as [[[|n]|] after]; try discriminate.
  destruct after as [|c [|b [|x after]]]; try discriminate.
  destruct (is_char "," c && is_char "}" b); [|discriminate].
  intros [= <-]. lia.
Qed.

Lemma re_compile_match_nonempty (pat : str) (p : pattern) (s : str) (n : nat) :
  re_compile pat = Some p -> match_at p s = Some n -> (1 <= n)%nat.
Proof.
  unfold re_compile. destruct (tokenize pat) as [toks|]; [|discriminate].
  cbn [mbind option_bind].
  destruct (parse_item toks) as [[[negate set] after]|]; [|discriminate].
  cbn [mbind option_bind].
  destruct (parse_repeat after) as [rep|] eqn:Hrep; [|discriminate].
  cbn [mbind option_bind]. intros [= <-]. unfold match_at. cbn [p_repeat].
  destruct rep as [lo|].
  - apply parse_repeat_positive in Hrep.
    destruct (lo <=? _)%nat eqn:Hlo; [|discriminate].
    apply Nat.leb_le in Hlo. intros [= <-]. lia.
  - destruct s as [|c rest]; [discriminate|].
    destruct (in_set _ c); [|discriminate]. intros [= <-]. lia.
Qed.

(** The token [re.escape] leaves for one character. *)
Definition tok_of (c : codepoint) : token :=
  if is_special c then TEsc c else TChar c.

Lemma is_special_cases (c : codepoint) :
  is_special c = true -> In c special_chars.
Proof.
  unfold is_special. rewrite existsb_exists. intros (d & Hd & Heq).
  apply N.eqb_eq in Heq. now subst.
Qed.

Lemma tokenize_re_escape (j rest : str) :
  tokenize (re_escape j ++ rest) = app (map tok_of j) <$> tokenize rest.
Proof.
  induction j as [|c j IH]; cbn [re_escape flat_map map app].
  - now destruct (tokenize rest).
  - fold (re_escape j). rewrite <- app_assoc. unfold tok_of at 1.
    destruct (is_special c) eqn:Hs; cbn [app tokenize].
    + change (ord "\" =? ord "\") with true. cbn match. rewrite IH.
      now destruct (tokenize rest).
    + destruct (c =? ord "\") eqn:Hc.
      * apply N.eqb_eq in Hc. subst c. discriminate Hs.
      * rewrite IH. now destruct (tokenize rest).
Qed.

Lemma tokenize_escape (d : codepoint) (rest : str) :
  tokenize (ord "\" :: d :: rest) = cons (TEsc d) <$> tokenize rest.
Proof. reflexivity. Qed.

(** Characters other than the backslash are tokens of their own. *)
Lemma tokenize_plain (pre rest : str) :
  forallb (fun c => negb (c =? ord "\")) pre = true ->
  tokenize (pre ++ rest) = app (map TChar pre) <$> tokenize rest.
Proof.
  induction pre as [|c pre IH]; cbn [forallb app map tokenize].
  - now destruct (tokenize rest).
  - intros [Hc Hpre]%andb_prop. apply negb_true_iff in Hc. rewrite Hc, IH by easy.
    now destruct (tokenize rest).
Qed.

Lemma class_code_tok_of (c : codepoint) : class_code (tok_of c) = Some (LITERAL c).
Proof.
  unfold tok_of. destruct (is_special c) eqn:Hs; [|reflexivity].
  apply is_special_cases in Hs. cbn in Hs.
  repeat (destruct Hs as [<-|Hs]; [reflexivity|]). destruct Hs.
Qed.

Lemma is_char_tok_of (a : ascii) (c : codepoint) :
  is_special (ord a) = true -> is_char a (tok_of c) = false.
Proof.
  intros Ha. unfold tok_of. destruct (is_special c) eqn:Hs; [reflexivity|].
  cbn [is_char]. apply N.eqb_neq. intros ->. congruence.
Qed.

Definition head_is_dash (toks : list token) : bool :=
  match toks with
  | d :: _ => is_char "-" d
  | [] => false
  end.

(** A step of the loop over the set at a token that neither closes the set
    nor starts a range. *)
Lemma parse_set_step (t : token) (rest : list token) (set : list set_item) :
  is_char "]" t && nonempty set = false -> head_is_dash rest = false ->
  parse_set (t :: rest) set =
    code1 ← class_code t; parse_set rest (set ++ [code1]).
Proof.
  intros Hclose Hdash. cbn [parse_set]. rewrite Hclose.
  destruct (class_code t) as [code1|]; [|reflexivity]. cbn [mbind option_bind].
  destruct rest as [|d rest2]; [reflexivity|].
  cbn [head_is_dash] in Hdash. now rewrite Hdash.
Qed.

Definition close_tok : token := TChar (ord "]").

Lemma head_is_dash_escaped (j : str) :
  head_is_dash (map tok_of j ++ [close_tok]) = false.
Proof.
  destruct j as [|c j]; [reflexivity|]. cbn [map app head_is_dash].
  now apply is_char_tok_of.
Qed.

(** The escaped characters all enter the set as literals, and the bracket
    after them closes it. *)
Lemma parse_set_escaped (j : str) (set : list set_item) :
  nonempty set = true ->
  parse_set (map tok_of j ++ [close_tok]) set = Some (set ++ map LITERAL j, []).
Proof.
  revert set; induction j as [|c j IH]; intros set Hset.
  - cbn [map app parse_set]. change (is_char "]" close_tok) with true.
    rewrite Hset. cbn [andb]. now rewrite app_nil_r.
  - cbn [map app]. rewrite parse_set_step.
    + rewrite class_code_tok_of. cbn [mbind option_bind].
      rewrite IH by now destruct set.
      now rewrite <- app_assoc.
    + now rewrite is_char_tok_of.
    + apply head_is_dash_escaped.
Qed.

(** The set [a-zA-Z0-9\s] the pattern of [limpiar_caracteres] starts with. *)
Definition base_set : list set_item :=
  [RANGE (ord "a") (ord "z"); RANGE (ord "A") (ord "Z");
   RANGE (ord "0") (ord "9"); CATEGORY_SPACE].

Lemma re_compile_patron (j : str) :
  re_compile (lit "[^a-zA-Z0-9\s" ++ re_escape j ++ lit "]") =
    Some {| p_negate := true; p_set := base_set ++ map LITERAL j;
            p_repeat := None |}.
Proof.
  unfold re_compile.
  change (lit "[^a-zA-Z0-9\s" ++ re_escape j ++ lit "]")
    with (lit "[^a-zA-Z0-9" ++ [ord "\"; ord "s"] ++ re_escape j ++ lit "]").
  assert (Htok : tokenize (lit "[^a-zA-Z0-9" ++ [ord "\"; ord "s"]
                             ++ re_escape j ++ lit "]")
                 = Some (map TChar (lit "[^a-zA-Z0-9") ++ TEsc (ord "s")
                           :: map tok_of j ++ [close_tok])).
  { rewrite tokenize_plain by reflexivity.
    change ([ord "\"; ord "s"] ++ re_escape j ++ lit "]")
      with (ord "\" :: ord "s" :: re_escape j ++ lit "]").
    rewrite tokenize_escape, tokenize_re_escape. reflexivity. }
  rewrite Htok. cbn [mbind option_bind].
  change (parse_item (map TChar (lit "[^a-zA-Z0-9") ++ TEsc (ord "s")
                        :: map tok_of j ++ [close_tok]))
    with ('(set, after) ← parse_set (TEsc (ord "s") :: map tok_of j ++ [close_tok])
                             [RANGE (ord "a") (ord "z"); RANGE (ord "A") (ord "Z");
                              RANGE (ord "0") (ord "9")];
          Some (true, set, after)).
  rewrite parse_set_step; [|reflexivity|apply head_is_dash_escaped].
  change (class_code (TEsc (ord "s"))) with (Some CATEGORY_SPACE).
  cbn [mbind option_bind app]. rewrite parse_set_escaped by reflexivity.
  reflexivity.
Qed.

Lemma existsb_literal (c : codepoint) (j : str) :
  existsb (item_matches c) (map LITERAL j) = existsb (N.eqb c) j.
Proof. induction j as [|d j IH]; [reflexivity|]. cbn. now rewrite IH. Qed.

(** ** [limpiar_caracteres] *)

Module CaracteresSpec.
Import LimpiezaTexto.

(** [c] is one of the characters of the allow-list. *)
Definition allowed (allow : list str) (c : codepoint) : bool :=
  existsb (existsb (N.eqb c)) allow.

(** The characters that stay: letters a-z and A-Z, digits, whitespace, and
    the allowed ones. *)
Definition retained (allow : list str) (c : codepoint) : bool :=
  is_ascii_letter c || is_ascii_digit c || Py_UNICODE_ISSPACE c
  || allowed allow c.

Lemma allowed_concat (allow : list str) (c : codepoint) :
  existsb (N.eqb c) (concat allow) = allowed allow c.
Proof.
  induction allow as [|a allow IH]; [reflexivity|].
  cbn [concat allowed existsb]. rewrite existsb_app. f_equal. exact IH.
Qed.

Lemma allowed_In (allow : list str) (c : codepoint) :
  allowed allow c = true <-> exists a, In a allow /\ In c a.
Proof.
  unfold allowed. rewrite existsb_exists. split.
  - intros (a & Ha & Hc). exists a. split; [easy|].
    apply existsb_exists in Hc as (d & Hd & ->%N.eqb_eq). exact Hd.
  - intros (a & Ha & Hc). exists a. split; [easy|].
    apply existsb_exists. exists c. split; [easy|apply N.eqb_refl].
Qed.

(** The set compiled from the pattern rejects exactly the retained ones. *)
Lemma in_set_patron (allow : list str) (c : codepoint) :
  in_set {| p_negate := true;
            p_set := base_set ++ map LITERAL (concat allow);
            p_repeat := None |} c
  = negb (retained allow c).
Proof.
  unfold in_set, retained. cbn [p_negate p_set xorb].
  rewrite existsb_app, existsb_literal, allowed_concat. f_equal.
  unfold base_set, is_ascii_letter, is_ascii_digit. cbn [existsb item_matches].
  now rewrite orb_false_r, !orb_assoc.
Qed.

Lemma limpiar_caracteres_filter (texto : str) (allow : list str) (calls : nat) :
  limpiar_caracteres (VStr texto) allow calls
  = (Return (VStr (List.filter (retained allow) texto)), S calls).
Proof.
  unfold limpiar_caracteres, decorador_validar_texto, counted,
    limpiar_caracteres_body.
  rewrite re_compile_patron, re_sub_single_char by reflexivity.
  do 3 f_equal. apply filter_ext. intros c.
  now rewrite in_set_patron, negb_involutive.
Qed.

(** Allow-lists with the same characters keep the same characters. *)
Lemma retained_same_entries (l l' : list str) (c : codepoint) :
  (forall a, In a l <-> In a l') -> retained l' c = retained l c.
Proof.
  intros Hsame. unfold retained. f_equal.
  apply eq_true_iff_eq. rewrite !allowed_In.
  split; intros (a & Ha & Hc); exists a; split; try easy; now apply Hsame.
Qed.

(** C1: on a string, [limpiar_caracteres] returns the characters of the input
    that are an ASCII letter, a digit, whitespace or a character of the
    allow-list, in their order, dropping all others; the two examples of the
    specification evaluate as stated, so allowed characters that are special
    in a pattern behave as literals. *)
Theorem limpiar_caracteres_keeps_exactly :
  (forall (texto : str) (allow : list str) (calls : nat),
      limpiar_caracteres (VStr texto) allow calls
      = (Return (VStr (List.filter (retained allow) texto)), S calls))
  /\ fst (limpiar_caracteres (VStr (lit "h" ++ [233] ++ lit "llo_world!"))
            [lit "_"] 0%nat)
     = Return (VStr (lit "hllo_world"))
  /\ fst (limpiar_caracteres (VStr (lit "a]b^c-d"))
            [lit "]"; lit "^"; lit "-"] 0%nat)
     = Return (VStr (lit "a]b^c-d")).
Proof.
  split; [exact limpiar_caracteres_filter|].
  split; rewrite limpiar_caracteres_filter; reflexivity.
Qed.

(** C9: repeating entries of the allow-list does not change the result: two
    allow-lists with the same entries, however often each occurs, give the
    same result on every input. *)
Theorem limpiar_caracteres_duplicates (v : value) (l l' : list str) (calls : nat) :
  (forall a, In a l <-> In a l') ->
  limpiar_caracteres v l' calls = limpiar_caracteres v l calls.
Proof.
  intros Hsame. destruct v as [|texto| | |]; try reflexivity.
  rewrite !limpiar_caracteres_filter. do 3 f_equal.
  apply filter_ext. intros c. now apply retained_same_entries.
Qed.

Lemma limpiar_caracteres_duplicates_witness :
  limpiar_caracteres (VStr (lit "a_b-c!")) [lit "_"; lit "-"; lit "_"; lit "_"] 0%nat
  = limpiar_caracteres (VStr (lit "a_b-c!")) [lit "_"; lit "-"] 0%nat.
Proof.
  apply (limpiar_caracteres_duplicates (VStr (lit "a_b-c!"))
           [lit "_"; lit "-"] [lit "_"; lit "-"; lit "_"; lit "_"] 0%nat).
  intros a. cbn [In]. tauto.
Defined.

End CaracteresSpec.

(** ** [limpiar_espacios] *)

Module EspaciosSpec.
Import LimpiezaTexto.

Abbreviation isspace := Py_UNICODE_ISSPACE.

(** The pattern [\s{2,}] as compiled. *)
Definition multiespacio : pattern :=
  {| p_negate := false; p_set := [CATEGORY_SPACE]; p_repeat := Some 2%nat |}.

Definition starts_ws (s : str) : bool :=
  match s with
  | c :: _ => isspace c
  | [] => false
  end.

(** The text cut into its maximal runs: blocks of characters that are all
    whitespace ([true]) or all not ([false]), neighbours of different kinds. *)
Fixpoint runs (s : str) : list (bool * str) :=
  match s with
  | [] => []
  | c :: rest =>
      match runs rest with
      | (b, r) :: rs =>
          if eqb b (isspace c) then (b, c :: r) :: rs
          else (isspace c, [c]) :: (b, r) :: rs
      | [] => [(isspace c, [c])]
      end
  end.

(** A run of two or more whitespace characters becomes one space. *)
Definition collapse_run (r : bool * str) : str :=
  if fst r && (2 <=? length (snd r))%nat then lit " " else snd r.

Definition collapse_runs (s : str) : str := concat (map collapse_run (runs s)).

(** No two whitespace characters next to each other. *)
Fixpoint no_ws_pair (s : str) : bool :=
  match s with
  | c :: rest => negb (isspace c && starts_ws rest) && no_ws_pair rest
  | [] => true
  end.

Lemma PATRON_MULTIESPACIO_compiled : PATRON_MULTIESPACIO = Some multiespacio.
Proof. reflexivity. Qed.

Lemma in_set_multiespacio (c : codepoint) : in_set multiespacio c = isspace c.
Proof. unfold in_set. cbn. now rewrite orb_false_r. Qed.

Lemma span_len_ext (f g : codepoint -> bool) (s : str) :
  (forall c, f c = g c) -> span_len f s = span_len g s.
Proof.
  intros Hfg. induction s as [|c s IH]; [reflexivity|].
  cbn [span_len]. now rewrite Hfg, IH.
Qed.

Lemma span_len_starts (s : str) :
  (1 <=? span_len isspace s)%nat = starts_ws s.
Proof. destruct s as [|c s]; [reflexivity|]. cbn. now destruct (isspace c). Qed.

Lemma span_len_take (s : str) :
  forallb isspace (take (span_len isspace s) s) = true.
Proof.
  induction s as [|c s IH]; [reflexivity|]. cbn [span_len].
  destruct (isspace c) eqn:Hc; [|reflexivity].
  cbn [take forallb]. now rewrite Hc, IH.
Qed.

Lemma span_len_drop (s : str) :
  starts_ws (drop (span_len isspace s) s) = false.
Proof.
  induction s as [|c s IH]; [reflexivity|]. cbn [span_len].
  destruct (isspace c) eqn:Hc; [exact IH|]. exact Hc.
Qed.

(** The scan of [limpiar_espacios], one step at a time: at a whitespace
    character followed by another the whole run becomes one space. *)
Lemma re_sub_multiespacio_cons (c : codepoint) (rest : str) :
  re_sub multiespacio (lit " ") (c :: rest) =
    if isspace c && starts_ws rest
    then ord " " :: re_sub multiespacio (lit " ")
                      (drop (span_len isspace rest) rest)
    else c :: re_sub multiespacio (lit " ") rest.
Proof.
  rewrite re_sub_cons. unfold match_at. cbn [p_repeat multiespacio].
  rewrite (span_len_ext _ isspace) by apply in_set_multiespacio.
  cbn [span_len]. destruct (isspace c); cbn [andb]; [|reflexivity].
  change (2 <=? S (span_len isspace rest))%nat
    with (1 <=? span_len isspace rest)%nat.
  rewrite span_len_starts. now destruct (starts_ws rest).
Qed.

Lemma re_sub_multiespacio_nil : re_sub multiespacio (lit " ") [] = [].
Proof. reflexivity. Qed.

(** *** The runs are the maximal runs of the text *)

Lemma runs_concat (s : str) : concat (map snd (runs s)) = s.
Proof.
  induction s as [|c s IH]; [reflexivity|]. cbn [runs].
  destruct (runs s) as [|[b r] rs]; cbn in IH |- *; [now rewrite <- IH|].
  destruct (eqb b (isspace c)); cbn; now rewrite <- IH.
Qed.

Lemma runs_head (c : codepoint) (rest : str) :
  exists r rs, runs (c :: rest) = (isspace c, r) :: rs.
Proof.
  cbn [runs]. destruct (runs rest) as [|[b r] rs]; [now eexists _, _|].
  destruct (eqb b (isspace c)) eqn:Hb; [|now eexists _, _].
  apply eqb_prop in Hb. subst b. now eexists _, _.
Qed.

(** Each run is not empty and of one kind. *)
Lemma runs_uniform (s : str) :
  Forall (fun br => snd br <> [] /\
                    forallb (fun c => eqb (isspace c) (fst br)) (snd br) = true)
         (runs s).
Proof.
  induction s as [|c s IH]; [constructor|]. cbn [runs].
  destruct (runs s) as [|[b r] rs].
  - repeat constructor; [easy|]. cbn. now rewrite eqb_reflx.
  - inversion IH as [|? ? [Hne Hall] Hrs]; subst. cbn [fst snd] in *.
    destruct (eqb b (isspace c)) eqn:Hb.
    + constructor; [|exact Hrs]. split; [easy|]. cbn [fst snd forallb].
      apply eqb_prop in Hb. subst b. now rewrite eqb_reflx.
    + constructor; [|exact IH]. split; [easy|]. cbn. now rewrite eqb_reflx.
Qed.

(** Neighbouring runs are of different kinds, so every run is maximal. *)
Fixpoint alternate (rs : list (bool * str)) : bool :=
  match rs with
  | (b, _) :: rest =>
      match rest with
      | (b', _) :: _ => negb (eqb b b') && alternate rest
      | [] => true
      end
  | [] => true
  end.

Lemma runs_alternate (s : str) : alternate (runs s) = true.
Proof.
  induction s as [|c s IH]; [reflexivity|]. cbn [runs].
  destruct (runs s) as [|[b r] rs]; [reflexivity|].
  destruct (eqb b (isspace c)) eqn:Hb; [exact IH|].
  cbn [alternate] in IH |- *. rewrite IH, andb_true_r.
  destruct b, (isspace c); try discriminate Hb; reflexivity.
Qed.

(** A whitespace block before text that does not start with whitespace is a
    run of its own. *)
Lemma runs_ws_block (w t : str) :
  w <> [] -> forallb isspace w = true -> starts_ws t = false ->
  runs (w ++ t) = (true, w) :: runs t.
Proof.
  intros Hne Hw Ht. induction w as [|c w IH]; [easy|].
  cbn [forallb] in Hw. apply andb_prop in Hw as [Hc Hw].
  cbn [app runs]. destruct w as [|d w].
  - cbn [app]. destruct t as [|e t]; [cbn; now rewrite Hc|].
    destruct (runs_head e t) as (r & rs & ->). cbn [starts_ws] in Ht.
    now rewrite Ht, Hc.
  - rewrite IH by easy. now rewrite Hc.
Qed.

Lemma collapse_runs_cons_other (c : codepoint) (rest : str) :
  isspace c = false -> collapse_runs (c :: rest) = c :: collapse_runs rest.
Proof.
  intros Hc. unfold collapse_runs. cbn [runs]. rewrite Hc.
  destruct (runs rest) as [|[[|] r] rs]; reflexivity.
Qed.

(** The scan produces the text with its runs collapsed. *)
Lemma re_sub_collapse_runs (s : str) :
  re_sub multiespacio (lit " ") s = collapse_runs s.
Proof.
  remember (length s) as n eqn:Hn. revert s Hn.
  induction n as [n IH] using lt_wf_ind. intros [|c rest] Hn; [reflexivity|].
  rewrite re_sub_multiespacio_cons. destruct (isspace c) eqn:Hc; cbn [andb].
  - pose proof (span_len_take (c :: rest)) as Htake.
    pose proof (span_len_drop (c :: rest)) as Hdrop.
    pose proof (take_drop (span_len isspace (c :: rest)) (c :: rest)) as Hsplit.
    cbn [span_len] in Htake, Hdrop, Hsplit. rewrite Hc in Htake, Hdrop, Hsplit.
    cbn [take drop] in Htake, Hdrop, Hsplit.
    unfold collapse_runs. rewrite <- Hsplit.
    rewrite runs_ws_block by easy. cbn [map concat].
    unfold collapse_run at 1. cbn [fst snd length andb].
    change (2 <=? S (length (take (span_len isspace rest) rest)))%nat
      with (1 <=? length (take (span_len isspace rest) rest))%nat.
    rewrite length_take_le by (clear; induction rest as [|d r IHr]; cbn;
                               [lia|destruct (isspace d); cbn; lia]).
    rewrite span_len_starts. destruct (starts_ws rest) eqn:Hrest.
    + cbn [lit app]. f_equal. eapply IH; [|reflexivity].
      subst n. cbn [length]. rewrite length_drop. lia.
    + destruct rest as [|d r]; [reflexivity|]. cbn [starts_ws] in Hrest.
      cbn [span_len]. rewrite Hrest. cbn [take drop app]. f_equal.
      eapply IH; [|reflexivity]. subst n. cbn [length]. lia.
  - rewrite collapse_runs_cons_other by easy. f_equal.
    eapply IH; [|reflexivity]. subst n. cbn [length]. lia.
Qed.

(** *** [str.strip] *)

Definition ends_ws (s : str) : bool := starts_ws (rev s).

Lemma lstrip_split (s : str) :
  exists a, s = a ++ lstrip s /\ forallb isspace a = true.
Proof.
  induction s as [|c s (a & Hs & Ha)]; [now exists []|]. cbn [lstrip].
  destruct (isspace c) eqn:Hc; [|now exists []].
  exists (c :: a). cbn [app forallb]. rewrite Hc, Ha. now rewrite <- Hs.
Qed.

Lemma lstrip_starts (s : str) : starts_ws (lstrip s) = false.
Proof.
  induction s as [|c s IH]; [reflexivity|]. cbn [lstrip].
  destruct (isspace c) eqn:Hc; [exact IH|exact Hc].
Qed.

Lemma lstrip_fixed (s : str) : starts_ws s = false -> lstrip s = s.
Proof. destruct s as [|c s]; [reflexivity|]. cbn. now intros ->. Qed.

Lemma rstrip_split (s : str) :
  exists b, s = rstrip s ++ b /\ forallb isspace b = true.
Proof.
  destruct (lstrip_split (rev s)) as (a & Hs & Ha). exists (rev a). split.
  - unfold rstrip. rewrite <- rev_app_distr, <- Hs. now rewrite rev_involutive.
  - rewrite forallb_forall in Ha |- *. intros c Hc. apply Ha.
    now apply in_rev.
Qed.

Lemma rstrip_ends (s : str) : ends_ws (rstrip s) = false.
Proof. unfold ends_ws, rstrip. rewrite rev_involutive. apply lstrip_starts. Qed.

Lemma rstrip_fixed (s : str) : ends_ws s = false -> rstrip s = s.
Proof.
  unfold ends_ws, rstrip. intros H. rewrite lstrip_fixed by easy.
  apply rev_involutive.
Qed.

Lemma starts_ws_prefix (a b : str) :
  starts_ws (a ++ b) = false -> starts_ws a = false.
Proof. now destruct a. Qed.

(** [strip] removes a block of whitespace at each end, and what is left
    neither starts nor ends with whitespace. *)
Lemma strip_split (s : str) :
  exists a b, s = a ++ strip s ++ b
              /\ forallb isspace a = true /\ forallb isspace b = true
              /\ starts_ws (strip s) = false /\ ends_ws (strip s) = false.
Proof.
  destruct (lstrip_split s) as (a & Hs & Ha).
  destruct (rstrip_split (lstrip s)) as (b & Hl & Hb).
  exists a, b. unfold strip. rewrite <- Hl. repeat split; try easy.
  - apply (starts_ws_prefix _ b). rewrite <- Hl. apply lstrip_starts.
  - apply rstrip_ends.
Qed.

Lemma strip_fixed (s : str) :
  starts_ws s = false -> ends_ws s = false -> strip s = s.
Proof.
  intros Hstart Hend. unfold strip. rewrite lstrip_fixed by easy.
  now apply rstrip_fixed.
Qed.

(** *** After one pass nothing is left to collapse *)

Lemma no_ws_pair_app (a b : str) :
  no_ws_pair (a ++ b) = true -> no_ws_pair a = true /\ no_ws_pair b = true.
Proof.
  induction a as [|c a IH]; [easy|]. cbn [app no_ws_pair].
  intros [Hc Hab]%andb_prop. destruct (IH Hab) as [Ha Hb]. split; [|exact Hb].
  rewrite Ha, andb_true_r. destruct a as [|d a]; [|exact Hc].
  cbn [starts_ws]. now rewrite andb_false_r.
Qed.

Lemma re_sub_starts (s : str) :
  starts_ws (re_sub multiespacio (lit " ") s) = starts_ws s.
Proof.
  destruct s as [|c rest]; [reflexivity|]. rewrite re_sub_multiespacio_cons.
  destruct (isspace c) eqn:Hc, (starts_ws rest); cbn [andb starts_ws];
    now rewrite ?Hc.
Qed.

Lemma re_sub_no_ws_pair (s : str) :
  no_ws_pair (re_sub multiespacio (lit " ") s) = true.
Proof.
  remember (length s) as n eqn:Hn. revert s Hn.
  induction n as [n IH] using lt_wf_ind. intros [|c rest] Hn; [reflexivity|].
  rewrite re_sub_multiespacio_cons.
  destruct (isspace c && starts_ws rest) eqn:Hpair; cbn [no_ws_pair].
  - rewrite re_sub_starts, span_len_drop, andb_false_r. cbn [negb andb].
    eapply IH; [|reflexivity]. subst n. cbn [length]. rewrite length_drop. lia.
  - rewrite re_sub_starts, Hpair. cbn [negb andb].
    eapply IH; [|reflexivity]. subst n. cbn [length]. lia.
Qed.

Lemma re_sub_fixed (s : str) :
  no_ws_pair s = true -> re_sub multiespacio (lit " ") s = s.
Proof.
  induction s as [|c rest IH]; [reflexivity|]. cbn [no_ws_pair].
  intros [Hc Hrest]%andb_prop. rewrite re_sub_multiespacio_cons.
  apply negb_true_iff in Hc. rewrite Hc. now rewrite IH.
Qed.

Lemma limpiar_espacios_str (s : str) (calls : nat) :
  limpiar_espacios (VStr s) tt calls
  = (Return (VStr (strip (re_sub multiespacio (lit " ") s))), S calls).
Proof. reflexivity. Qed.

(** The result of one pass is a fixed point of both steps. *)
Lemma normalized_fixed (s : str) :
  let t := strip (re_sub multiespacio (lit " ") s) in
  strip (re_sub multiespacio (lit " ") t) = t.
Proof.
  intros t. destruct (strip_split (re_sub multiespacio (lit " ") s))
    as (a & b & Hs & _ & _ & Hstart & Hend). fold t in Hs, Hstart, Hend.
  pose proof (re_sub_no_ws_pair s) as Hpair. rewrite Hs in Hpair.
  apply no_ws_pair_app in Hpair as [_ Hpair].
  apply no_ws_pair_app in Hpair as [Hpair _].
  rewrite re_sub_fixed by easy. now apply strip_fixed.
Qed.

(** C2: on a string, [limpiar_espacios] returns the text in which every
    maximal run of two or more whitespace characters is replaced by one space,
    with the whitespace at both ends then removed; the example of the
    specification evaluates to "a b c". *)
Theorem limpiar_espacios_collapses_runs :
  (forall (s : str) (calls : nat),
      limpiar_espacios (VStr s) tt calls
      = (Return (VStr (strip (collapse_runs s))), S calls))
  /\ fst (limpiar_espacios (VStr (lit "  a   b" ++ [9; 9] ++ lit "c  ")) tt 0%nat)
     = Return (VStr (lit "a b c")).
Proof.
  split; [|reflexivity]. intros s calls.
  now rewrite limpiar_espacios_str, re_sub_collapse_runs.
Qed.

(** C3: [limpiar_espacios] is idempotent: on every string the call returns a
    string, and the call on that result returns it unchanged. *)
Theorem limpiar_espacios_idempotent (s : str) (calls calls' : nat) :
  exists t : str,
    limpiar_espacios (VStr s) tt calls = (Return (VStr t), S calls)
    /\ limpiar_espacios (VStr t) tt calls' = (Return (VStr t), S calls').
Proof.
  exists (strip (re_sub multiespacio (lit " ") s)). split; [reflexivity|].
  rewrite limpiar_espacios_str. now rewrite normalized_fixed.
Qed.

End EspaciosSpec.

(** ** The decorator on inputs that are not strings *)

Module DecoradorSpec.
Import LimpiezaTexto.

(** C4: on [None] a decorated function returns [None] and the wrapped function
    does not run: whatever the wrapped function would do to the world, the
    world is left as it was; for [limpiar_espacios] and [limpiar_caracteres]
    the count of runs of their body does not move. *)
Theorem decorador_none_returns_none :
  (forall (W Args : Type) (func : str -> Args -> py W exn value)
          (args : Args) (w : W),
      decorador_validar_texto func VNone args w = (Return VNone, w))
  /\ (forall calls : nat,
        limpiar_espacios VNone tt calls = (Return VNone, calls))
  /\ (forall (allow : list str) (calls : nat),
        limpiar_caracteres VNone allow calls = (Return VNone, calls)).
Proof. repeat split. Qed.

(** C5: on an input that is neither [None] nor a string a decorated function
    raises [TypeError] with a message that names the type of the input, and
    the wrapped function does not run (the world is left as it was). *)
Theorem decorador_type_error (v : value) :
  v <> VNone -> isinstance_str v = false ->
  let e := TypeError ("Se esperaba 'str' o None, pero se recibió "
                        ++ repr (type_name v))%string in
  (forall (W Args : Type) (func : str -> Args -> py W exn value)
          (args : Args) (w : W),
      decorador_validar_texto func v args w = (Raise e, w))
  /\ (forall calls : nat, limpiar_espacios v tt calls = (Raise e, calls))
  /\ (forall (allow : list str) (calls : nat),
        limpiar_caracteres v allow calls = (Raise e, calls)).
Proof.
  intros Hnone Hstr. destruct v; try easy; repeat split.
Qed.

Lemma decorador_type_error_witness :
  limpiar_espacios (VInt 3) tt 0%nat
  = (Raise (TypeError "Se esperaba 'str' o None, pero se recibió 'int'"), 0%nat).
Proof.
  apply (decorador_type_error (VInt 3)); [discriminate|reflexivity].
Defined.

End DecoradorSpec.

(** ** [request_api] *)

Module CnxApiSpec.
Import CnxApi.

Local Open Scope Z_scope.

(** The headers the caller supplied, as found in the store. *)
Definition caller_headers {W : Type} (σ : world W) (headers : option loc)
  : gmap string string :=
  match headers with
  | Some l => deref σ l
  | None => ∅
  end.

(** The headers a call is expected to dispatch: those of the caller, with the
    bearer token under "Authorization" when the token is true as a condition
    and the caller has no such key. *)
Definition derived_headers (d : gmap string string) (bearer_token : option string)
  : gmap string string :=
  match bearer_token with
  | Some tok =>
      if negb (String.eqb tok "") && bool_decide (d !! "Authorization" = None)
      then <["Authorization" := String.append "Bearer " tok]> d
      else d
  | None => d
  end.

(** What the helper does with the answer of the transport. *)
Definition checked {W Response : Type}
    (raise_for_status : Response -> option (request_exception Response))
    (answer : outcome (request_exception Response) Response * world W)
  : outcome (request_exception Response) Response * world W :=
  match answer with
  | (Raise e, σ) => (Raise e, σ)
  | (Return response, σ) =>
      match raise_for_status response with
      | Some e => (Raise e, σ)
      | None => (Return response, σ)
      end
  end.

Section Dispatch.
Context {W Params Json Float Response : Type}.
Variable upper : string -> string.
Variable raise_for_status : Response -> option (request_exception Response).
Variable requests_request : @transport W Params Json Float Response.

(** One call of the helper is one call of the transport in use, on a request
    whose headers are a new mapping holding the derived headers; every
    mapping that was in the store stays as it was. *)
Lemma request_api_dispatch (method url : string)
    (params : option Params) (json_data : option Json)
    (headers : option loc) (bearer_token : option string)
    (session : option transport) (timeout : Float) (σ : world W) :
  let l := fresh (dom (heap σ)) in
  let final := derived_headers (caller_headers σ headers) bearer_token in
  request_api upper raise_for_status requests_request method url params
    json_data headers bearer_token session timeout σ
  = checked raise_for_status
      (default requests_request session
         (Request (upper method) url params json_data l timeout)
         (World (<[l := final]> (heap σ)) (ext σ))).
Proof.
  intros l final. unfold request_api, new_dict. fold l.
  set (source := match headers with
                 | Some l0 => if bool_decide (deref σ l0 = ∅) then ∅ else deref σ l0
                 | None => ∅
                 end).
  assert (Hsource : source = caller_headers σ headers).
  { subst source. destruct headers as [l0|]; [|reflexivity]. cbn.
    case_bool_decide as Hempty; [now rewrite Hempty|reflexivity]. }
  rewrite Hsource. clear source Hsource.
  set (d := caller_headers σ headers) in *.
  assert (Hderef : deref (World (<[l := d]> (heap σ)) (ext σ)) l = d).
  { unfold deref. cbn [heap]. now rewrite lookup_insert_eq. }
  assert (Hσ2 :
    (if truthy bearer_token
        && negb (contains l "Authorization" (World (<[l := d]> (heap σ)) (ext σ)))
     then setitem l "Authorization"
            (String.append "Bearer " (default EmptyString bearer_token))
            (World (<[l := d]> (heap σ)) (ext σ))
     else World (<[l := d]> (heap σ)) (ext σ))
    = World (<[l := final]> (heap σ)) (ext σ)).
  { unfold contains, setitem. rewrite Hderef. cbn [heap ext].
    rewrite insert_insert_eq. subst final. unfold derived_headers, truthy.
    destruct bearer_token as [tok|]; [|reflexivity]. cbn [default].
    destruct (negb (tok =? "")%string); [|reflexivity]. cbn [andb].
    destruct (d !! "Authorization") as [v|] eqn:Hd.
    - rewrite bool_decide_eq_true_2 by eauto.
      now rewrite bool_decide_eq_false_2 by discriminate.
    - rewrite bool_decide_eq_false_2 by (now intros [? ?]).
      now rewrite bool_decide_eq_true_2 by reflexivity. }
  rewrite Hσ2. unfold checked.
  destruct session as [s|]; reflexivity.
Qed.

Lemma checked_world (answer : outcome (request_exception Response) Response
                                * world W) :
  snd (checked raise_for_status answer) = snd answer.
Proof.
  destruct answer as [[r|e] σ]; cbn; [|reflexivity].
  now destruct (raise_for_status r).
Qed.

Lemma derived_headers_other (d : gmap string string)
    (bearer_token : option string) (k : string) :
  k <> "Authorization" -> derived_headers d bearer_token !! k = d !! k.
Proof.
  intros Hk. unfold derived_headers. destruct bearer_token as [tok|]; [|easy].
  destruct (_ && _); [|easy]. now rewrite lookup_insert_ne.
Qed.

Lemma derived_headers_present (d : gmap string string)
    (bearer_token : option string) (v : string) :
  d !! "Authorization" = Some v -> derived_headers d bearer_token = d.
Proof.
  intros Hd. unfold derived_headers. destruct bearer_token as [tok|]; [|easy].
  rewrite bool_decide_eq_false_2 by congruence. now rewrite andb_false_r.
Qed.

Lemma derived_headers_bearer (d : gmap string string) (tok : string) :
  tok <> EmptyString -> d !! "Authorization" = None ->
  derived_headers d (Some tok) !! "Authorization"
  = Some (String.append "Bearer " tok).
Proof.
  intros Htok Hd. unfold derived_headers.
  apply String.eqb_neq in Htok. rewrite Htok.
  rewrite bool_decide_eq_true_2 by easy. cbn [negb andb].
  apply lookup_insert_eq.
Qed.

Lemma derived_headers_empty_token (d : gmap string string) :
  derived_headers d (Some EmptyString) = d.
Proof. reflexivity. Qed.

(** C8: the mapping of headers the caller supplied is not changed by the
    call.  The helper hands the transport a new mapping, at an address that
    was not in use, holding the caller's entries and, only when the token is
    true as a condition and the caller has no key spelled "Authorization",
    the bearer entry; the caller's mapping is as it was when the transport is
    called, and still so after the call when the transport leaves it alone. *)
Theorem request_api_keeps_caller_headers (method url : string)
    (params : option Params) (json_data : option Json)
    (l : loc) (d : gmap string string) (bearer_token : option string)
    (session : option transport) (timeout : Float) (σ : world W) :
  heap σ !! l = Some d ->
  (forall req σ0,
      heap (snd (default requests_request session req σ0)) !! l = heap σ0 !! l) ->
  let l' := fresh (dom (heap σ)) in
  let final := derived_headers d bearer_token in
  let result :=
    request_api upper raise_for_status requests_request method url params
      json_data (Some l) bearer_token session timeout σ in
  l' <> l
  /\ result = checked raise_for_status
                (default requests_request session
                   (Request (upper method) url params json_data l' timeout)
                   (World (<[l' := final]> (heap σ)) (ext σ)))
  /\ <[l' := final]> (heap σ) !! l = Some d
  /\ (forall k, k <> "Authorization" -> final !! k = d !! k)
  /\ (forall v, d !! "Authorization" = Some v -> final = d)
  /\ heap (snd result) !! l = Some d.
Proof.
  intros Hl Hframe l' final result.
  assert (Hfresh : heap σ !! l' = None).
  { apply not_elem_of_dom. apply is_fresh. }
  assert (Hne : l' <> l) by congruence.
  assert (Hd : caller_headers σ (Some l) = d).
  { unfold caller_headers, deref. now rewrite Hl. }
  assert (Hres : result = checked raise_for_status
                (default requests_request session
                   (Request (upper method) url params json_data l' timeout)
                   (World (<[l' := final]> (heap σ)) (ext σ)))).
  { subst result. rewrite request_api_dispatch. now rewrite Hd. }
  repeat split; try easy.
  - rewrite lookup_insert_ne; easy.
  - intros k Hk. now apply derived_headers_other.
  - intros v Hv. now apply (derived_headers_present _ _ v).
  - rewrite Hres, checked_world, Hframe. cbn [heap].
    rewrite lookup_insert_ne; easy.
Qed.

End Dispatch.

Section Stub.
Context {Params Json Float Response : Type}.
Variable upper : string -> string.
Variable raise_for_status : Response -> option (request_exception Response).
Variable requests_request :
  @transport (list (request Params Json Float * gmap string string))
             Params Json Float Response.

(** With the stub in use, as the session or in the place of
    [requests.request], the call answers as the stub does, after the check of
    the status, and the stub has recorded one more request. *)
Lemma request_api_stub
    (reply : outcome (request_exception Response) Response)
    (method url : string) (params : option Params) (json_data : option Json)
    (headers : option loc) (bearer_token : option string)
    (session : option transport) (timeout : Float)
    (σ : world (list (request Params Json Float * gmap string string))) :
  default requests_request session = stub_transport reply ->
  let l := fresh (dom (heap σ)) in
  let final := derived_headers (caller_headers σ headers) bearer_token in
  request_api upper raise_for_status requests_request method url params
    json_data headers bearer_token session timeout σ
  = checked raise_for_status
      (reply,
       World (<[l := final]> (heap σ))
             (ext σ ++ [(Request (upper method) url params json_data l timeout,
                         final)])).
Proof.
  intros Hstub l final. rewrite request_api_dispatch, Hstub.
  unfold stub_transport, deref. cbn [heap ext r_headers].
  now rewrite lookup_insert_eq.
Qed.

(** C6, amended: with a bearer token that is not the empty string and no key
    "Authorization" among the caller's headers, the headers the transport
    receives map "Authorization" to "Bearer " followed by the token; when the
    caller's headers have the key "Authorization", its value is the one the
    transport receives, whatever the token. *)
Theorem request_api_bearer_header
    (reply : outcome (request_exception Response) Response)
    (method url : string) (params : option Params) (json_data : option Json)
    (headers : option loc) (tok : string) (bearer_token : option string)
    (session : option transport) (timeout : Float)
    (σ : world (list (request Params Json Float * gmap string string))) :
  default requests_request session = stub_transport reply ->
  tok <> EmptyString ->
  let d := caller_headers σ headers in
  let dispatched token :=
    ext (snd (request_api upper raise_for_status requests_request method url
                params json_data headers token session timeout σ)) in
  (d !! "Authorization" = None ->
   exists l final,
     dispatched (Some tok)
     = ext σ ++ [(Request (upper method) url params json_data l timeout, final)]
     /\ final !! "Authorization" = Some (String.append "Bearer " tok))
  /\ (forall v, d !! "Authorization" = Some v ->
       exists l final,
         dispatched bearer_token
         = ext σ ++ [(Request (upper method) url params json_data l timeout, final)]
         /\ final !! "Authorization" = Some v).
Proof.
  intros Hstub Htok d dispatched. split.
  - intros Hd. eexists _, _. split.
    + unfold dispatched. rewrite (request_api_stub reply) by easy.
      now rewrite checked_world.
    + now apply derived_headers_bearer.
  - intros v Hd. eexists _, _. split.
    + unfold dispatched. rewrite (request_api_stub reply) by easy.
      now rewrite checked_world.
    + fold d. now rewrite (derived_headers_present _ _ v).
Qed.

(** C10: with the empty string as bearer token the headers the transport
    receives are those of the caller, so without a key "Authorization" when
    the caller supplied none. *)
Theorem request_api_empty_token
    (reply : outcome (request_exception Response) Response)
    (method url : string) (params : option Params) (json_data : option Json)
    (headers : option loc)
    (session : option transport) (timeout : Float)
    (σ : world (list (request Params Json Float * gmap string string))) :
  default requests_request session = stub_transport reply ->
  caller_headers σ headers !! "Authorization" = None ->
  exists l final,
    ext (snd (request_api upper raise_for_status requests_request method url
                params json_data headers (Some EmptyString) session timeout σ))
    = ext σ ++ [(Request (upper method) url params json_data l timeout, final)]
    /\ final = caller_headers σ headers
    /\ final !! "Authorization" = None.
Proof.
  intros Hstub Hd. eexists _, _. split; [|split].
  - rewrite (request_api_stub reply) by easy. now rewrite checked_world.
  - apply derived_headers_empty_token.
  - now rewrite derived_headers_empty_token.
Qed.

End Stub.

Section LibraryStatus.
Context {Params Json Float : Type}.
Variable upper : string -> string.
Variable requests_request :
  @transport (list (request Params Json Float * gmap string string))
             Params Json Float stub_response.

(** C7: with [raise_for_status] as the library has it, a response of the stub
    with a status code from 400 to 599 makes the call raise the error for that
    status, and a response with any other code is returned as it is: so is one
    with code 200, but so is one with code 600 or more, for which the
    docstring and the comment of the helper announce an error; in each case
    the stub was called once. *)
Theorem request_api_status_range (r : stub_response)
    (method url : string) (params : option Params) (json_data : option Json)
    (headers : option loc) (bearer_token : option string)
    (session : option transport) (timeout : Float)
    (σ : world (list (request Params Json Float * gmap string string))) :
  default requests_request session = stub_transport (Return r) ->
  let result :=
    request_api upper Response_raise_for_status requests_request method url
      params json_data headers bearer_token session timeout σ in
  (400 <= status_code r < 600 -> fst result = Raise (HTTPError r))
  /\ (status_code r < 400 \/ 600 <= status_code r -> fst result = Return r)
  /\ length (ext (snd result)) = S (length (ext σ)).
Proof.
  intros Hstub result. subst result.
  rewrite (request_api_stub upper Response_raise_for_status requests_request
             (Return r)) by easy.
  repeat split.
  - intros [Hlo Hhi]. cbn [checked fst]. unfold Response_raise_for_status.
    destruct (Z.leb_spec 400 (status_code r)); [|lia].
    destruct (Z.ltb_spec (status_code r) 500); [reflexivity|]. cbn [andb].
    destruct (Z.leb_spec 500 (status_code r)); [|lia].
    destruct (Z.ltb_spec (status_code r) 600); [reflexivity|lia].
  - intros Hout. cbn [checked fst]. unfold Response_raise_for_status.
    destruct (Z.leb_spec 400 (status_code r)),
             (Z.ltb_spec (status_code r) 500); cbn [andb]; try lia;
      destruct (Z.leb_spec 500 (status_code r)),
               (Z.ltb_spec (status_code r) 600); cbn [andb]; try lia;
      reflexivity.
  - rewrite checked_world. cbn [snd ext]. rewrite length_app. cbn. lia.
Qed.

End LibraryStatus.

(** *** The helper against a stub, on concrete calls *)

Abbreviation example_log := (list (request unit unit Q * gmap string string)).

Definition ok_response : stub_response := StubResponse 200 "ok".
Definition error_response : stub_response := StubResponse 500 "Internal Server Error".

Definition stub_ok : @transport example_log unit unit Q stub_response :=
  stub_transport (Return ok_response).

Definition stub_error : @transport example_log unit unit Q stub_response :=
  stub_transport (Return error_response).

Definition example_url : string := "https://api.example.com/data".

(** A store in which the caller holds, at address 1, headers with the key
    spelled in lower case. *)
Definition lower_case_headers : gmap string string :=
  {["authorization" := "Basic abc"]}.

Definition example_world : world example_log :=
  World {[1%positive := lower_case_headers]} [].

Lemma request_api_bearer_header_witness :
  exists l final,
    ext (snd (request_api ascii_upper stub_raise_for_status stub_error
                "get" example_url None None None (Some "X") (Some stub_ok)
                15%Q (World ∅ [])))
    = [] ++ [(Request (ascii_upper "get") example_url None None l 15%Q, final)]
    /\ final !! "Authorization" = Some "Bearer X".
Proof.
  destruct (request_api_bearer_header ascii_upper stub_raise_for_status
              stub_error (Return ok_response) "get" example_url None None None
              "X" None (Some stub_ok) 15%Q (World ∅ []))
    as [Hinject _]; [reflexivity|discriminate|].
  apply Hinject. reflexivity.
Defined.

(** C6 as stated fails on a token that is provided but empty: no entry for
    "Authorization" reaches the transport. *)
Lemma request_api_bearer_header_counterexample :
  let dispatched :=
    ext (snd (request_api ascii_upper stub_raise_for_status stub_error
                "get" example_url None None None (Some EmptyString)
                (Some stub_ok) 15%Q (World ∅ []))) in
  dispatched = [(Request "GET" example_url None None 1%positive 15%Q, ∅)]
  /\ ~ (exists req final,
          dispatched = [(req, final)]
          /\ final !! "Authorization" = Some (String.append "Bearer " "")).
Proof.
  assert (Hrun :
    ext (snd (request_api ascii_upper stub_raise_for_status stub_error
                "get" example_url None None None (Some EmptyString)
                (Some stub_ok) 15%Q (World ∅ [])))
    = [(Request "GET" example_url None None 1%positive 15%Q, ∅)])
    by (vm_compute; reflexivity).
  cbv zeta. rewrite Hrun. split; [reflexivity|].
  intros (req & final & Heq & Hfinal). injection Heq as _ <-.
  rewrite lookup_empty in Hfinal. discriminate Hfinal.
Qed.

Lemma request_api_empty_token_witness :
  exists l final,
    ext (snd (request_api ascii_upper stub_raise_for_status stub_error
                "get" example_url None None (Some 1%positive)
                (Some EmptyString) (Some stub_ok) 15%Q example_world))
    = [] ++ [(Request (ascii_upper "get") example_url None None l 15%Q, final)]
    /\ final = lower_case_headers
    /\ final !! "Authorization" = None.
Proof.
  apply (request_api_empty_token ascii_upper stub_raise_for_status stub_error
           (Return ok_response) "get" example_url None None (Some 1%positive)
           (Some stub_ok) 15%Q example_world); [reflexivity|].
  vm_compute. reflexivity.
Defined.

(** A response with a status code past the server errors. *)
Definition odd_response : stub_response := StubResponse 600 "unassigned".

Lemma request_api_status_range_witness :
  fst (request_api ascii_upper Response_raise_for_status stub_ok
         "get" example_url None None None (Some "X")
         (Some (stub_transport (Return odd_response))) 15%Q (World ∅ []))
  = Return odd_response.
Proof.
  destruct (request_api_status_range ascii_upper stub_ok odd_response
              "get" example_url None None None (Some "X")
              (Some (stub_transport (Return odd_response))) 15%Q (World ∅ []))
    as (_ & Hreturn & _); [reflexivity|].
  apply Hreturn. right. vm_compute. discriminate.
Defined.

Lemma request_api_keeps_caller_headers_witness :
  heap (snd (request_api ascii_upper stub_raise_for_status stub_error
               "get" example_url None None (Some 1%positive) (Some "T")
               (Some stub_ok) 15%Q example_world)) !! 1%positive
  = Some lower_case_headers.
Proof.
  apply (request_api_keeps_caller_headers ascii_upper stub_raise_for_status
           stub_error "get" example_url None None 1%positive lower_case_headers
           (Some "T") (Some stub_ok) 15%Q example_world).
  - vm_compute. reflexivity.
  - intros req σ0. reflexivity.
Defined.

(** The key is compared as spelled: headers with "authorization" in lower
    case still get the entry "Authorization". *)
Example request_api_key_as_spelled :
  snd <$> ext (snd (request_api ascii_upper stub_raise_for_status stub_error
                      "get" example_url None None (Some 1%positive) (Some "T")
                      (Some stub_ok) 15%Q example_world))
  = [<["Authorization" := "Bearer T"]> lower_case_headers].
Proof. vm_compute. reflexivity. Qed.

End CnxApiSpec.

(** ** Further properties of the text functions *)

Module TextoExtra.
Import LimpiezaTexto CaracteresSpec EspaciosSpec.

(** [str.split()] without arguments: the words between whitespace. *)
Definition cons_head (c : codepoint) (ws : list str) : list str :=
  match ws with
  | w :: ws' => (c :: w) :: ws'
  | [] => [[c]]
  end.

Definition ends_word (s : str) : bool :=
  match s with
  | [] => true
  | d :: _ => isspace d
  end.

Fixpoint words (s : str) : list str :=
  match s with
  | [] => []
  | c :: rest =>
      if isspace c then words rest
      else if ends_word rest then [c] :: words rest
      else cons_head c (words rest)
  end.

(** A text as [limpiar_espacios] leaves it: no whitespace at either end and
    no two whitespace characters in a row. *)
Definition normalized (s : str) : bool :=
  negb (starts_ws s) && negb (ends_ws s) && no_ws_pair s.

(** *** Filters *)

Lemma filter_twice (f g : codepoint -> bool) (s : str) :
  (forall c, f c = true -> g c = true) ->
  List.filter g (List.filter f s) = List.filter f s.
Proof.
  intros Hfg. induction s as [|c s IH]; [reflexivity|]. cbn [List.filter].
  destruct (f c) eqn:Hc; [|exact IH]. cbn [List.filter].
  now rewrite (Hfg c Hc), IH.
Qed.

Lemma filter_absorb (f g : codepoint -> bool) (s : str) :
  (forall c, f c = true -> g c = true) ->
  List.filter f (List.filter g s) = List.filter f s.
Proof.
  intros Hfg. induction s as [|c s IH]; [reflexivity|]. cbn [List.filter].
  destruct (g c) eqn:Hg; cbn [List.filter].
  - now rewrite IH.
  - destruct (f c) eqn:Hf; [|exact IH]. apply Hfg in Hf. congruence.
Qed.

Lemma filter_length_le (f : codepoint -> bool) (s : str) :
  (length (List.filter f s) <= length s)%nat.
Proof.
  induction s as [|c s IH]; [reflexivity|]. cbn [List.filter].
  destruct (f c); cbn [length]; lia.
Qed.

Lemma filter_fixed (f : codepoint -> bool) (s : str) :
  List.filter f s = s <-> forallb f s = true.
Proof.
  induction s as [|c s IH]; [easy|]. cbn [List.filter forallb].
  destruct (f c) eqn:Hc; cbn [andb].
  - rewrite <- IH. split; [now intros [= ->]|now intros ->].
  - split; [|discriminate]. intros Heq.
    pose proof (filter_length_le f s) as Hlen. rewrite Heq in Hlen.
    cbn [length] in Hlen. lia.
Qed.

Lemma retained_grows (l l' : list str) (c : codepoint) :
  (forall x, In x (concat l) -> In x (concat l')) ->
  retained l c = true -> retained l' c = true.
Proof.
  intros Hsub. unfold retained. rewrite !orb_true_iff.
  intros [Hbase|Hallow]; [now left|right].
  rewrite <- allowed_concat in Hallow |- *.
  apply existsb_exists in Hallow as (d & Hd & ->%N.eqb_eq).
  apply existsb_exists. exists d. split; [now apply Hsub|apply N.eqb_refl].
Qed.

(** *** The scan of [limpiar_espacios], by cases *)

Lemma re_sub_multiespacio_ind (P : str -> str -> Prop) :
  P [] [] ->
  (forall c rest out,
      isspace c = true -> starts_ws rest = true ->
      P (drop (span_len isspace rest) rest) out ->
      P (c :: rest) (ord " " :: out)) ->
  (forall c rest out,
      isspace c && starts_ws rest = false ->
      P rest out -> P (c :: rest) (c :: out)) ->
  forall s, P s (re_sub multiespacio (lit " ") s).
Proof.
  intros Hnil Hrun Hcopy s.
  remember (length s) as n eqn:Hn. revert s Hn.
  induction n as [n IH] using lt_wf_ind. intros [|c rest] Hn; [exact Hnil|].
  rewrite re_sub_multiespacio_cons.
  destruct (isspace c && starts_ws rest) eqn:Hpair.
  - apply andb_prop in Hpair as [Hc Hrest]. apply Hrun; try easy.
    eapply IH; [|reflexivity]. subst n. cbn [length]. rewrite length_drop. lia.
  - apply Hcopy; [easy|]. eapply IH; [|reflexivity]. subst n. cbn [length]. lia.
Qed.

Lemma re_sub_length (s : str) :
  (length (re_sub multiespacio (lit " ") s) <= length s)%nat.
Proof.
  apply (re_sub_multiespacio_ind (fun s out => (length out <= length s)%nat)).
  - reflexivity.
  - intros c rest out _ _ Hout. rewrite length_drop in Hout. cbn [length]. lia.
  - intros c rest out _ Hout. cbn [length]. lia.
Qed.

Lemma forallb_drop (f : codepoint -> bool) (n : nat) (s : str) :
  forallb f s = true -> forallb f (drop n s) = true.
Proof.
  revert n; induction s as [|c s IH]; intros [|n]; try easy.
  cbn [forallb drop]. intros [_ Hs]%andb_prop. now apply IH.
Qed.

Lemma re_sub_forallb (f : codepoint -> bool) (s : str) :
  f (ord " ") = true -> forallb f s = true ->
  forallb f (re_sub multiespacio (lit " ") s) = true.
Proof.
  intros Hsp.
  apply (re_sub_multiespacio_ind
           (fun s out => forallb f s = true -> forallb f out = true)).
  - easy.
  - intros c rest out _ _ IH [_ Hrest]%andb_prop. cbn [forallb].
    rewrite Hsp. apply IH. now apply forallb_drop.
  - intros c rest out _ IH [Hc Hrest]%andb_prop. cbn [forallb].
    now rewrite Hc, IH.
Qed.

Lemma words_drop_span (s : str) :
  words (drop (span_len isspace s) s) = words s.
Proof.
  induction s as [|c s IH]; [reflexivity|]. cbn [span_len words].
  destruct (isspace c) eqn:Hc; [exact IH|]. cbn [drop words]. now rewrite Hc.
Qed.

Lemma re_sub_words (s : str) :
  words (re_sub multiespacio (lit " ") s) = words s
  /\ ends_word (re_sub multiespacio (lit " ") s) = ends_word s.
Proof.
  apply (re_sub_multiespacio_ind
           (fun s out => words out = words s /\ ends_word out = ends_word s)).
  - easy.
  - intros c rest out Hc Hrest [Hw _]. cbn [words ends_word]. rewrite Hc.
    change (isspace (ord " ")) with true. cbn match.
    now rewrite Hw, words_drop_span.
  - intros c rest out _ [Hw He]. cbn [words ends_word]. now rewrite Hw, He.
Qed.

Lemma words_ws_prefix (a x : str) :
  forallb isspace a = true -> words (a ++ x) = words x.
Proof.
  induction a as [|c a IH]; [easy|]. cbn [forallb app words].
  intros [Hc Ha]%andb_prop. rewrite Hc. now apply IH.
Qed.

Lemma ends_word_ws_suffix (x b : str) :
  forallb isspace b = true -> ends_word (x ++ b) = ends_word x.
Proof.
  destruct x as [|c x]; [|easy]. destruct b as [|d b]; [easy|].
  cbn. now intros [Hd _]%andb_prop.
Qed.

Lemma words_ws_suffix (x b : str) :
  forallb isspace b = true -> words (x ++ b) = words x.
Proof.
  intros Hb. induction x as [|c x IH].
  - cbn [app]. rewrite <- (app_nil_r b). now apply words_ws_prefix.
  - cbn [app words]. now rewrite IH, ends_word_ws_suffix.
Qed.

Lemma words_nil (s : str) : words s = [] <-> forallb isspace s = true.
Proof.
  induction s as [|c s IH]; [easy|]. cbn [words forallb].
  destruct (isspace c); cbn [andb]; [exact IH|].
  split; [|discriminate]. destruct (ends_word s); [discriminate|].
  now destruct (words s).
Qed.

Lemma strip_words (s : str) : words (strip s) = words s.
Proof.
  destruct (strip_split s) as (a & b & Hs & Ha & Hb & _).
  rewrite Hs at 2. now rewrite words_ws_prefix, words_ws_suffix.
Qed.

Lemma strip_length (s : str) : (length (strip s) <= length s)%nat.
Proof.
  destruct (strip_split s) as (a & b & Hs & _).
  rewrite Hs at 2. rewrite !length_app. lia.
Qed.

Lemma strip_forallb (f : codepoint -> bool) (s : str) :
  forallb f s = true -> forallb f (strip s) = true.
Proof.
  destruct (strip_split s) as (a & b & Hs & _). rewrite Hs at 1.
  rewrite !forallb_app. now intros [_ [Hx _]%andb_prop]%andb_prop.
Qed.

(** What one pass leaves is normalized. *)
Lemma normalized_result (s : str) :
  normalized (strip (re_sub multiespacio (lit " ") s)) = true.
Proof.
  destruct (strip_split (re_sub multiespacio (lit " ") s))
    as (a & b & Hs & _ & _ & Hstart & Hend).
  pose proof (re_sub_no_ws_pair s) as Hpair. rewrite Hs in Hpair.
  apply no_ws_pair_app in Hpair as [_ Hpair].
  apply no_ws_pair_app in Hpair as [Hpair _].
  unfold normalized. now rewrite Hstart, Hend, Hpair.
Qed.

Lemma normalized_stays (s : str) :
  normalized s = true -> strip (re_sub multiespacio (lit " ") s) = s.
Proof.
  unfold normalized. intros [[Hstart Hend]%andb_prop Hpair]%andb_prop.
  apply negb_true_iff in Hstart, Hend.
  rewrite re_sub_fixed by easy. now apply strip_fixed.
Qed.

(** *** [limpiar_caracteres] *)

(** X1: [limpiar_caracteres] is idempotent: with the same allow-list, the call
    on its own result returns that result. *)
Theorem limpiar_caracteres_idempotent
    (s : str) (allow : list str) (calls calls' : nat) :
  exists t : str,
    limpiar_caracteres (VStr s) allow calls = (Return (VStr t), S calls)
    /\ limpiar_caracteres (VStr t) allow calls' = (Return (VStr t), S calls').
Proof.
  exists (List.filter (retained allow) s). rewrite !limpiar_caracteres_filter.
  split; [reflexivity|]. now rewrite filter_twice.
Qed.

(** X2: [limpiar_caracteres] works character by character: the result on a
    concatenation is the concatenation of the results. *)
Theorem limpiar_caracteres_concat
    (a b : str) (allow : list str) (calls : nat) :
  exists ta tb : str,
    limpiar_caracteres (VStr a) allow calls = (Return (VStr ta), S calls)
    /\ limpiar_caracteres (VStr b) allow calls = (Return (VStr tb), S calls)
    /\ limpiar_caracteres (VStr (a ++ b)) allow calls
       = (Return (VStr (ta ++ tb)), S calls).
Proof.
  exists (List.filter (retained allow) a), (List.filter (retained allow) b).
  rewrite !limpiar_caracteres_filter. repeat split. now rewrite List.filter_app.
Qed.

(** X3: [limpiar_caracteres] returns its input unchanged exactly when every
    character of the input is an ASCII letter, a digit, whitespace or a
    character of the allow-list. *)
Theorem limpiar_caracteres_unchanged_iff
    (s : str) (allow : list str) (calls : nat) :
  limpiar_caracteres (VStr s) allow calls = (Return (VStr s), S calls)
  <-> forallb (retained allow) s = true.
Proof.
  rewrite limpiar_caracteres_filter, <- filter_fixed. split.
  - now intros [= Heq].
  - now intros ->.
Qed.

(** X4: when every character allowed by [l] is allowed by [l'], a pass with
    [l] after a pass with [l'] gives what the pass with [l] alone gives, and a
    pass with [l'] changes nothing in what the pass with [l] returned. *)
Theorem limpiar_caracteres_wider_list
    (s : str) (l l' : list str) (calls : nat) :
  (forall c, In c (concat l) -> In c (concat l')) ->
  exists t t' : str,
    limpiar_caracteres (VStr s) l calls = (Return (VStr t), S calls)
    /\ limpiar_caracteres (VStr s) l' calls = (Return (VStr t'), S calls)
    /\ limpiar_caracteres (VStr t') l calls = (Return (VStr t), S calls)
    /\ limpiar_caracteres (VStr t) l' calls = (Return (VStr t), S calls).
Proof.
  intros Hsub.
  exists (List.filter (retained l) s), (List.filter (retained l') s).
  rewrite !limpiar_caracteres_filter. repeat split.
  - rewrite filter_absorb; [reflexivity|]. intros c. now apply retained_grows.
  - rewrite filter_twice; [reflexivity|]. intros c. now apply retained_grows.
Qed.

Lemma limpiar_caracteres_wider_list_witness :
  exists t t' : str,
    limpiar_caracteres (VStr (lit "a-b_c!")) [lit "_"] 0%nat
    = (Return (VStr t), 1%nat)
    /\ limpiar_caracteres (VStr (lit "a-b_c!")) [lit "-"; lit "_"] 0%nat
       = (Return (VStr t'), 1%nat)
    /\ limpiar_caracteres (VStr t') [lit "_"] 0%nat = (Return (VStr t), 1%nat)
    /\ limpiar_caracteres (VStr t) [lit "-"; lit "_"] 0%nat
       = (Return (VStr t), 1%nat).
Proof.
  apply (limpiar_caracteres_wider_list (lit "a-b_c!") [lit "_"]
           [lit "-"; lit "_"] 0%nat).
  intros c. cbn. tauto.
Defined.

(** X5: the entries of the allow-list are joined, so only the characters in
    them count: two allow-lists with the same characters, however they are
    split into entries, give the same result; an entry of several characters
    allows each of them on its own. *)
Theorem limpiar_caracteres_same_characters
    (v : value) (l l' : list str) (calls : nat) :
  (forall c, In c (concat l) <-> In c (concat l')) ->
  limpiar_caracteres v l' calls = limpiar_caracteres v l calls.
Proof.
  intros Hsame. destruct v as [|texto| | |]; try reflexivity.
  rewrite !limpiar_caracteres_filter. do 3 f_equal.
  apply filter_ext. intros c. apply eq_true_iff_eq.
  split; apply retained_grows; intros x; apply Hsame.
Qed.

Lemma limpiar_caracteres_same_characters_witness :
  limpiar_caracteres (VStr (lit "a->b > c - d")) [lit ">"; lit "-"] 0%nat
  = limpiar_caracteres (VStr (lit "a->b > c - d")) [lit "->"] 0%nat.
Proof.
  apply (limpiar_caracteres_same_characters (VStr (lit "a->b > c - d"))
           [lit "->"] [lit ">"; lit "-"] 0%nat).
  intros c. cbn. tauto.
Defined.

(** *** [limpiar_espacios] *)

(** X6: the result of [limpiar_espacios] neither starts nor ends with
    whitespace and has no two whitespace characters in a row. *)
Theorem limpiar_espacios_normalized (s : str) (calls : nat) :
  exists t : str,
    limpiar_espacios (VStr s) tt calls = (Return (VStr t), S calls)
    /\ starts_ws t = false /\ ends_ws t = false /\ no_ws_pair t = true.
Proof.
  exists (strip (re_sub multiespacio (lit " ") s)). split; [reflexivity|].
  pose proof (normalized_result s) as Hn. unfold normalized in Hn.
  apply andb_prop in Hn as [[Hstart Hend]%andb_prop Hpair].
  now apply negb_true_iff in Hstart, Hend.
Qed.

(** X7: [limpiar_espacios] returns its input unchanged exactly when the input
    has no whitespace at either end and no two whitespace characters in a
    row; a single tab or newline between two words is left as it is. *)
Theorem limpiar_espacios_unchanged_iff (s : str) (calls : nat) :
  limpiar_espacios (VStr s) tt calls = (Return (VStr s), S calls)
  <-> normalized s = true.
Proof.
  rewrite limpiar_espacios_str. split.
  - intros [= Heq]. rewrite <- Heq. apply normalized_result.
  - intros Hn. now rewrite normalized_stays.
Qed.

(** X8: [limpiar_espacios] keeps the words of the text: splitting the result
    on whitespace gives the same words, in the same order, as splitting the
    input. *)
Theorem limpiar_espacios_keeps_words (s : str) (calls : nat) :
  exists t : str,
    limpiar_espacios (VStr s) tt calls = (Return (VStr t), S calls)
    /\ words t = words s.
Proof.
  exists (strip (re_sub multiespacio (lit " ") s)). split; [reflexivity|].
  rewrite strip_words. apply re_sub_words.
Qed.

(** X9: [limpiar_espacios] returns the empty string exactly on the inputs made
    of whitespace only, the empty string among them. *)
Theorem limpiar_espacios_empty_iff (s : str) (calls : nat) :
  limpiar_espacios (VStr s) tt calls = (Return (VStr []), S calls)
  <-> forallb isspace s = true.
Proof.
  rewrite limpiar_espacios_str, <- words_nil.
  rewrite <- (proj1 (re_sub_words s)), <- strip_words.
  set (t := strip (re_sub multiespacio (lit " ") s)).
  split.
  - now intros [= ->].
  - intros Hw. apply words_nil in Hw.
    pose proof (normalized_result s) as Hn. fold t in Hn. unfold normalized in Hn.
    apply andb_prop in Hn as [[Hstart _]%andb_prop _].
    destruct t as [|c t]; [reflexivity|].
    cbn in Hw, Hstart. apply andb_prop in Hw as [Hc _]. now rewrite Hc in Hstart.
Qed.

(** X10: the result of [limpiar_espacios] is never longer than its input. *)
Theorem limpiar_espacios_not_longer (s : str) (calls : nat) :
  exists t : str,
    limpiar_espacios (VStr s) tt calls = (Return (VStr t), S calls)
    /\ (length t <= length s)%nat.
Proof.
  exists (strip (re_sub multiespacio (lit " ") s)). split; [reflexivity|].
  etransitivity; [apply strip_length|apply re_sub_length].
Qed.

(** X11: [limpiar_caracteres] followed by [limpiar_espacios] gives a text that
    both functions leave unchanged. *)
Theorem limpiar_caracteres_then_espacios
    (s : str) (allow : list str) (calls : nat) :
  exists t u : str,
    limpiar_caracteres (VStr s) allow calls = (Return (VStr t), S calls)
    /\ limpiar_espacios (VStr t) tt calls = (Return (VStr u), S calls)
    /\ limpiar_caracteres (VStr u) allow calls = (Return (VStr u), S calls)
    /\ limpiar_espacios (VStr u) tt calls = (Return (VStr u), S calls).
Proof.
  exists (List.filter (retained allow) s).
  exists (strip (re_sub multiespacio (lit " ") (List.filter (retained allow) s))).
  rewrite !limpiar_caracteres_filter, !limpiar_espacios_str. repeat split.
  - do 3 f_equal. apply filter_fixed. apply strip_forallb.
    apply re_sub_forallb; [reflexivity|].
    apply forallb_forall. intros c Hc. now apply List.filter_In in Hc.
  - now rewrite normalized_stays by apply normalized_result.
Qed.

(** In the other order the result need not be normalized: removing a
    character can bring two spaces together. *)
Example limpiar_espacios_then_caracteres :
  fst (limpiar_caracteres (VStr (lit "a ! b")) [] 0%nat)
  = Return (VStr (lit "a  b")).
Proof. rewrite limpiar_caracteres_filter. reflexivity. Qed.

End TextoExtra.

(** ** Further properties of [request_api] *)

Module CnxApiExtra.
Import CnxApi CnxApiSpec.

Section AnyTransport.
Context {W Params Json Float Response : Type}.
Variable upper : string -> string.
Variable raise_for_status : Response -> option (request_exception Response).
Variable requests_request : @transport W Params Json Float Response.

(** X13: the method counts up to case: two spellings with the same upper-case
    form give the same call, whatever the transport. *)
Theorem request_api_method_case (m1 m2 url : string)
    (params : option Params) (json_data : option Json)
    (headers : option loc) (bearer_token : option string)
    (session : option transport) (timeout : Float) (σ : world W) :
  upper m1 = upper m2 ->
  request_api upper raise_for_status requests_request m1 url params json_data
    headers bearer_token session timeout σ
  = request_api upper raise_for_status requests_request m2 url params json_data
      headers bearer_token session timeout σ.
Proof.
  intros Hcase. rewrite !request_api_dispatch. now rewrite Hcase.
Qed.

End AnyTransport.

Section WithStub.
Context {Params Json Float Response : Type}.
Variable upper : string -> string.
Variable raise_for_status : Response -> option (request_exception Response).
Variable requests_request :
  @transport (list (request Params Json Float * gmap string string))
             Params Json Float Response.

(** X12: whatever the stub answers, a response, an error status or a failure,
    it was called once, with the method in upper case, the url, the
    parameters, the body and the timeout as the caller gave them, and with
    headers at an address that was not in use before the call. *)
Theorem request_api_forwards
    (reply : outcome (request_exception Response) Response)
    (method url : string) (params : option Params) (json_data : option Json)
    (headers : option loc) (bearer_token : option string)
    (session : option transport) (timeout : Float)
    (σ : world (list (request Params Json Float * gmap string string))) :
  default requests_request session = stub_transport reply ->
  exists l final,
    heap σ !! l = None
    /\ ext (snd (request_api upper raise_for_status requests_request method url
                  params json_data headers bearer_token session timeout σ))
       = ext σ ++ [(Request (upper method) url params json_data l timeout, final)].
Proof.
  intros Hstub. eexists _, _. split.
  - apply not_elem_of_dom. apply is_fresh.
  - rewrite (request_api_stub upper raise_for_status requests_request reply)
      by easy.
    now rewrite checked_world.
Qed.

(** X14: the helper does not look at the status code itself: on a response of
    the transport the call raises what [raise_for_status] of that response
    raises, and returns that response when it raises nothing. *)
Theorem request_api_verdict (r : Response)
    (method url : string) (params : option Params) (json_data : option Json)
    (headers : option loc) (bearer_token : option string)
    (session : option transport) (timeout : Float)
    (σ : world (list (request Params Json Float * gmap string string))) :
  default requests_request session = stub_transport (Return r) ->
  fst (request_api upper raise_for_status requests_request method url params
         json_data headers bearer_token session timeout σ)
  = match raise_for_status r with
    | Some e => Raise e
    | None => Return r
    end.
Proof.
  intros Hstub.
  rewrite (request_api_stub upper raise_for_status requests_request (Return r))
    by easy.
  cbn. now destruct (raise_for_status r).
Qed.

(** X16: the headers the transport receives are the caller's, entry for
    entry, except in one case: a token that is not empty together with
    caller's headers that have no key "Authorization". *)
Theorem request_api_headers_changed_iff
    (reply : outcome (request_exception Response) Response)
    (method url : string) (params : option Params) (json_data : option Json)
    (headers : option loc) (bearer_token : option string)
    (session : option transport) (timeout : Float)
    (σ : world (list (request Params Json Float * gmap string string))) :
  default requests_request session = stub_transport reply ->
  exists l final,
    ext (snd (request_api upper raise_for_status requests_request method url
                params json_data headers bearer_token session timeout σ))
    = ext σ ++ [(Request (upper method) url params json_data l timeout, final)]
    /\ (final <> caller_headers σ headers
        <-> truthy bearer_token = true
            /\ caller_headers σ headers !! "Authorization" = None).
Proof.
  intros Hstub. eexists _, _. split.
  - rewrite (request_api_stub upper raise_for_status requests_request reply)
      by easy.
    now rewrite checked_world.
  - set (d := caller_headers σ headers). unfold derived_headers, truthy.
    destruct bearer_token as [tok|]; [|split; [easy|now intros [? _]]].
    destruct (negb (tok =? "")%string); cbn [andb];
      [|split; [easy|now intros [? _]]].
    destruct (d !! "Authorization") as [v|] eqn:Hd.
    + rewrite bool_decide_eq_false_2 by discriminate.
      split; [easy|now intros [_ ?]].
    + rewrite bool_decide_eq_true_2 by reflexivity. split; [easy|].
      intros _ Heq. rewrite <- Heq in Hd.
      rewrite lookup_insert_eq in Hd. discriminate Hd.
Qed.

(** X15: a token given to one call does not reach the next one.  After a call
    with a token and the caller's mapping of headers, a second call with the
    same mapping and no token hands the transport a new mapping: one at an
    address that was not in use when the call was made, other than the
    caller's and other than the one of the first call, holding the caller's
    entries only; the caller's mapping is still as it was. *)
Theorem request_api_token_does_not_leak
    (reply : outcome (request_exception Response) Response)
    (method url method' url' : string)
    (params params' : option Params) (json_data json_data' : option Json)
    (l : loc) (d : gmap string string) (tok : string)
    (session : option transport) (timeout timeout' : Float)
    (σ : world (list (request Params Json Float * gmap string string))) :
  default requests_request session = stub_transport reply ->
  heap σ !! l = Some d ->
  let σ1 :=
    snd (request_api upper raise_for_status requests_request method url params
           json_data (Some l) (Some tok) session timeout σ) in
  let σ2 :=
    snd (request_api upper raise_for_status requests_request method' url'
           params' json_data' (Some l) None session timeout' σ1) in
  exists l1 l2 final1,
    l1 <> l /\ l2 <> l /\ l1 <> l2
    /\ heap σ !! l1 = None /\ heap σ1 !! l2 = None
    /\ ext σ2
       = ext σ
           ++ [(Request (upper method) url params json_data l1 timeout, final1);
               (Request (upper method') url' params' json_data' l2 timeout', d)]
    /\ heap σ2 !! l2 = Some d
    /\ heap σ2 !! l = Some d.
Proof.
  intros Hstub Hl σ1 σ2.
  set (l1 := fresh (dom (heap σ))).
  set (final1 := derived_headers d (Some tok)).
  assert (Hl1 : heap σ !! l1 = None) by (apply not_elem_of_dom, is_fresh).
  assert (Hne : l1 <> l).
  { intros Heq. assert (Hnone : heap σ !! l = None) by (now rewrite <- Heq).
    congruence. }
  assert (Hd : caller_headers σ (Some l) = d)
    by (unfold caller_headers, deref; now rewrite Hl).
  assert (Hσ1 : σ1 = World (<[l1 := final1]> (heap σ))
                       (ext σ ++ [(Request (upper method) url params json_data
                                     l1 timeout, final1)])).
  { subst σ1.
    rewrite (request_api_stub upper raise_for_status requests_request reply)
      by easy.
    now rewrite checked_world, Hd. }
  assert (Hl' : heap σ1 !! l = Some d).
  { rewrite Hσ1. cbn [heap]. now rewrite lookup_insert_ne. }
  assert (Hd1 : caller_headers σ1 (Some l) = d)
    by (unfold caller_headers, deref; now rewrite Hl').
  set (l2 := fresh (dom (heap σ1))).
  assert (Hl2 : heap σ1 !! l2 = None) by (apply not_elem_of_dom, is_fresh).
  assert (Hσ2 : σ2 = World (<[l2 := d]> (heap σ1))
                       (ext σ1 ++ [(Request (upper method') url' params'
                                      json_data' l2 timeout', d)])).
  { subst σ2.
    rewrite (request_api_stub upper raise_for_status requests_request reply)
      by easy.
    now rewrite checked_world, Hd1. }
  assert (Hne2 : l2 <> l).
  { intros Heq. assert (Hnone : heap σ1 !! l = None) by (now rewrite <- Heq).
    congruence. }
  exists l1, l2, final1.
  split; [exact Hne|]. split; [exact Hne2|]. split; [|split; [exact Hl1|]].
  - intros Heq. rewrite Hσ1 in Hl2. cbn [heap] in Hl2.
    rewrite <- Heq, lookup_insert_eq in Hl2. discriminate Hl2.
  - split; [exact Hl2|]. split; [|split].
    + rewrite Hσ2. cbn [ext]. rewrite Hσ1. cbn [ext].
      now rewrite <- app_assoc.
    + rewrite Hσ2. cbn [heap]. apply lookup_insert_eq.
    + rewrite Hσ2. cbn [heap]. now rewrite lookup_insert_ne.
Qed.

End WithStub.

Lemma request_api_method_case_witness :
  request_api ascii_upper stub_raise_for_status stub_error "get" example_url
    None None None (Some "X") (Some stub_ok) 15%Q (World ∅ [])
  = request_api ascii_upper stub_raise_for_status stub_error "GeT" example_url
      None None None (Some "X") (Some stub_ok) 15%Q (World ∅ []).
Proof.
  apply (request_api_method_case ascii_upper stub_raise_for_status stub_error
           "get" "GeT" example_url None None None (Some "X") (Some stub_ok)
           15%Q (World ∅ [])).
  reflexivity.
Defined.

Lemma request_api_forwards_witness :
  exists l final,
    heap example_world !! l = None
    /\ ext (snd (request_api ascii_upper stub_raise_for_status stub_ok "delete"
                  example_url (Some tt) None (Some 1%positive) None None
                  15%Q example_world))
       = [] ++ [(Request (ascii_upper "delete") example_url (Some tt) None l
                   15%Q, final)].
Proof.
  apply (request_api_forwards ascii_upper stub_raise_for_status stub_ok
           (Return ok_response) "delete" example_url (Some tt) None
           (Some 1%positive) None None 15%Q example_world).
  reflexivity.
Defined.

Lemma request_api_verdict_witness :
  fst (request_api ascii_upper stub_raise_for_status stub_error "get"
         example_url None None None None (Some stub_ok) 15%Q (World ∅ []))
  = match stub_raise_for_status ok_response with
    | Some e => Raise e
    | None => Return ok_response
    end.
Proof.
  apply (request_api_verdict ascii_upper stub_raise_for_status stub_error
           ok_response "get" example_url None None None None (Some stub_ok)
           15%Q (World ∅ [])).
  reflexivity.
Defined.

Lemma request_api_headers_changed_iff_witness :
  exists l final,
    ext (snd (request_api ascii_upper stub_raise_for_status stub_error "get"
                example_url None None (Some 1%positive) (Some "T")
                (Some stub_ok) 15%Q example_world))
    = [] ++ [(Request (ascii_upper "get") example_url None None l 15%Q, final)]
    /\ (final <> caller_headers example_world (Some 1%positive)
        <-> truthy (Some "T") = true
            /\ caller_headers example_world (Some 1%positive)
                  !! "Authorization" = None).
Proof.
  apply (request_api_headers_changed_iff ascii_upper stub_raise_for_status
           stub_error (Return ok_response) "get" example_url None None
           (Some 1%positive) (Some "T") (Some stub_ok) 15%Q example_world).
  reflexivity.
Defined.

Lemma request_api_token_does_not_leak_witness :
  let σ1 :=
    snd (request_api ascii_upper stub_raise_for_status stub_error "post"
           example_url None (Some tt) (Some 1%positive) (Some "T")
           (Some stub_ok) 15%Q example_world) in
  let σ2 :=
    snd (request_api ascii_upper stub_raise_for_status stub_error "get"
           example_url None None (Some 1%positive) None
           (Some stub_ok) 30%Q σ1) in
  exists l1 l2 final1,
    l1 <> 1%positive /\ l2 <> 1%positive /\ l1 <> l2
    /\ heap example_world !! l1 = None /\ heap σ1 !! l2 = None
    /\ ext σ2
       = [] ++ [(Request (ascii_upper "post") example_url None (Some tt) l1
                   15%Q, final1);
                (Request (ascii_upper "get") example_url None None l2 30%Q,
                 lower_case_headers)]
    /\ heap σ2 !! l2 = Some lower_case_headers
    /\ heap σ2 !! 1%positive = Some lower_case_headers.
Proof.
  apply (request_api_token_does_not_leak ascii_upper stub_raise_for_status
           stub_error (Return ok_response)
           "post" example_url "get" example_url None None (Some tt) None
           1%positive lower_case_headers "T" (Some stub_ok) 15%Q 30%Q
           example_world).
  - reflexivity.
  - vm_compute. reflexivity.
Defined.

End CnxApiExtra.
